(** * Braintrust data downloader: a model of [main.py] and its properties

    The development follows the layout of the script: JSON values and the
    world the script runs in, the two paginated fetchers, the in-place event
    normaliser, the CSV writer and the per-endpoint driver [download_data]. *)

From Stdlib Require Import ZArith Floats.SpecFloat.
From stdpp Require Import base option list strings gmap sorting pretty.

Set Warnings "-register-all".
Open Scope Z_scope.

(** ** JSON values as Python sees them after [response.json()]

    A nested mapping keeps its keys in insertion order, because [json.dumps]
    writes them in that order.  Event mappings themselves are only ever
    accessed by key, so they are finite maps (see [event] below). *)

Inductive value : Type :=
  | VNone
  | VBool (b : bool)
  | VInt (n : Z)
  | VFloat (x : spec_float)
  | VStr (s : string)
  | VList (items : list value)
  | VDict (fields : list (string * value)).

(** [isinstance(v, dict)] *)
Definition is_dict (v : value) : bool :=
  match v with VDict _ => true | _ => false end.

(** [isinstance(v, (dict, list))] *)
Definition is_nested (v : value) : bool :=
  match v with VDict _ | VList _ => true | _ => false end.

(** Strings, numbers, booleans and [None]. *)
Definition is_scalar (v : value) : bool := negb (is_nested v).

(** [d.get(key)] on a nested mapping: the value bound to [key], else [None]. *)
Fixpoint fields_get (d : list (string * value)) (key : string) : value :=
  match d with
  | [] => VNone
  | (k, v) :: rest => if decide (k = key) then v else fields_get rest key
  end.

(** A stand-in for [json.dumps] to run examples with: it writes what Python
    writes for values built from [None], booleans, integers, lists,
    mappings and strings that need no escaping.  Finite floats are written
    as [m*2^e] where Python writes a decimal. *)
Definition dquote : string := String (Ascii.ascii_of_nat 34) EmptyString.

Definition sample_float (x : spec_float) : string :=
  match x with
  | S754_zero s => if s then "-0.0" else "0.0"
  | S754_infinity s => if s then "-Infinity" else "Infinity"
  | S754_nan => "NaN"
  | S754_finite s m e =>
      (if s then "-" else "") +:+ pretty (Z.pos m) +:+ "*2^" +:+ pretty e
  end.

Fixpoint sample_dumps (v : value) : string :=
  match v with
  | VNone => "null"
  | VBool b => if b then "true" else "false"
  | VInt n => pretty n
  | VFloat x => sample_float x
  | VStr s => dquote +:+ s +:+ dquote
  | VList items =>
      "[" +:+ (fix go (l : list value) : string :=
                 match l with
                 | [] => ""
                 | [x] => sample_dumps x
                 | x :: rest => sample_dumps x +:+ ", " +:+ go rest
                 end) items +:+ "]"
  | VDict fields =>
      "{" +:+ (fix go (l : list (string * value)) : string :=
                 match l with
                 | [] => ""
                 | [(k, x)] => dquote +:+ k +:+ dquote +:+ ": " +:+ sample_dumps x
                 | (k, x) :: rest =>
                     dquote +:+ k +:+ dquote +:+ ": " +:+ sample_dumps x +:+ ", " +:+ go rest
                 end) fields +:+ "}"
  end.

(** A top-level event mapping, and a reference to one in the store. *)
Abbreviation event := (gmap string value).
Abbreviation loc := nat.

(** ** Exceptions and log records *)

Inductive exn : Type :=
  | RequestException (detail : string)   (* requests.exceptions.RequestException *)
  | IOError (detail : string)            (* OSError and its subclasses *)
  | UnboundLocalError (name : string)
  | IndexError
  | KeyError (key : string)
  | AttributeError (name : string)
  | ValueError (detail : string)
  | UnicodeEncodeError (text : string).  (* a [ValueError]; not an [OSError] *)

(** [isinstance(e, requests.exceptions.RequestException)] *)
Definition is_request_exception (e : exn) : bool :=
  match e with RequestException _ => true | _ => false end.

(** [isinstance(e, IOError)] *)
Definition is_io_error (e : exn) : bool :=
  match e with IOError _ => true | _ => false end.

(** One constructor per [logger] call of the script, carrying the values
    that the call interpolates into its message. *)
Inductive log_entry : Type :=
  | ErrFetchObjectList (endpoint : string) (e : exn)
  | ErrUnexpectedObjectList (e : exn)
  | ErrFetchEvents (endpoint object_id : string) (e : exn)
  | ErrUnexpectedEvents (e : exn)
  | WarnNoEvents (object_id : string)
  | ErrWriteCsv (filename : string) (e : exn)
  | ErrUnexpectedCsv (object_id : string) (e : exn)
  | ErrProcessing (endpoint object_id : string) (e : exn)
  | InfoComplete (endpoint : string)
  | InfoTotal (n : nat)
  | InfoNoEventsCount (n : nat)
  | InfoNoEventsIds (ids : list string)
  | ErrDownload (endpoint : string) (e : exn)
  | ErrFailedObjects (endpoint : string) (ids : list string)
  | ErrFailedEndpoints (endpoints : list string).

(** ** The remote API *)

(** An experiment or dataset: its [id] and whatever else the API sent. *)
Record obj : Type := Obj { obj_id : string; obj_rest : list (string * value) }.

Inductive param : Type := PInt (n : Z) | PStr (s : string).

Record request : Type := Request {
  req_url : string;
  req_headers : option (list (string * string));
  req_params : gmap string param }.

(** The decoded body of a 2xx answer, as far as the script reads it:
    [data.get('objects')], [data.get('events')] and [data.get('cursor')]. *)
Record body : Type := Body {
  body_objects : option (list obj);
  body_events : option (list event);
  body_cursor : option string }.

Inductive response : Type :=
  | Failed (detail : string)    (* connection error or non-2xx status *)
  | Answer (data : body).

(** ** The world the script runs in *)

(** A CSV file is the list of rows handed to the [csv] writer. *)
Abbreviation csv_file := (list (list value)).

Record world : Type := World {
  heap : list event;           (* event mappings made by [response.json()] *)
  net : list response;         (* what the API will answer, in order *)
  sent : list request;         (* requests sent so far, oldest first *)
  dirs : gset string;          (* directories that exist *)
  files : gmap string csv_file;(* files that exist *)
  denied : gset string;        (* paths the OS refuses to create or open:
                                  no permission, a name too long, ... *)
  unencodable : gset string;   (* texts the encoding of output files, the
                                  locale's, cannot hold *)
  log : list log_entry }.      (* log records, oldest first *)

Definition set_heap (h : list event) (w : world) : world :=
  World h (net w) (sent w) (dirs w) (files w) (denied w) (unencodable w) (log w).
Definition set_net (n : list response) (s : list request) (w : world) : world :=
  World (heap w) n s (dirs w) (files w) (denied w) (unencodable w) (log w).
Definition set_dirs (d : gset string) (w : world) : world :=
  World (heap w) (net w) (sent w) d (files w) (denied w) (unencodable w) (log w).
Definition set_files (f : gmap string csv_file) (w : world) : world :=
  World (heap w) (net w) (sent w) (dirs w) f (denied w) (unencodable w) (log w).
Definition add_log (entry : log_entry) (w : world) : world :=
  World (heap w) (net w) (sent w) (dirs w) (files w) (denied w) (unencodable w) (log w ++ [entry]).

Definition add_logs (entries : list log_entry) (w : world) : world :=
  World (heap w) (net w) (sent w) (dirs w) (files w) (denied w) (unencodable w) (log w ++ entries).

(** The world after the mapping at [l] has been replaced by [ev]. *)
Definition put (l : loc) (ev : event) (w : world) : world :=
  set_heap (<[l := ev]> (heap w)) w.

(** ** Computations: state, exceptions, and [None] for a dangling reference *)

Inductive outcome (A : Type) : Type :=
  | Return (a : A)
  | Raise (e : exn).
Arguments Return {A} a.
Arguments Raise {A} e.

Definition M (A : Type) : Type := world → option (outcome A * world).

Definition ret {A} (a : A) : M A := λ w, Some (Return a, w).
Definition raise {A} (e : exn) : M A := λ w, Some (Raise e, w).
Definition bind {A B} (m : M A) (k : A → M B) : M B := λ w,
  match m w with
  | Some (Return a, w') => k a w'
  | Some (Raise e, w') => Some (Raise e, w')
  | None => None
  end.
(** [try: m  except Exception as e: handler e] *)
Definition try_except {A} (m : M A) (handler : exn → M A) : M A := λ w,
  match m w with
  | Some (Raise e, w') => handler e w'
  | r => r
  end.

#[global] Instance M_ret : MRet M := @ret.
#[global] Instance M_bind : MBind M := λ A B k m, bind m k.

Fixpoint for_each {A} (xs : list A) (body : A → M unit) : M unit :=
  match xs with
  | [] => ret tt
  | x :: rest => body x ;; for_each rest body
  end.

(** [[f x for x in xs]] *)
Fixpoint map_m {A B} (f : A → M B) (xs : list A) : M (list B) :=
  match xs with
  | [] => ret []
  | x :: rest => y ← f x ; ys ← map_m f rest ; ret (y :: ys)
  end.

(** A loop that threads an accumulator through its iterations. *)
Fixpoint fold_m {A B} (f : B → A → M B) (acc : B) (xs : list A) : M B :=
  match xs with
  | [] => ret acc
  | x :: rest => acc' ← f acc x ; fold_m f acc' rest
  end.

Definition logger (entry : log_entry) : M unit := λ w, Some (Return tt, add_log entry w).

(** ** Mutable event mappings *)

Definition deref (l : loc) : M event := λ w,
  match heap w !! l with
  | Some ev => Some (Return ev, w)
  | None => None
  end.
Definition assign (l : loc) (ev : event) : M unit := λ w,
  Some (Return tt, set_heap (<[l := ev]> (heap w)) w).

(** [event.get(key)] *)
Definition dict_get (l : loc) (key : string) : M value :=
  ev ← deref l ; ret (default VNone (ev !! key)).
(** [event.pop(key)] *)
Definition dict_pop (l : loc) (key : string) : M value :=
  ev ← deref l ;
  match ev !! key with
  | Some v => assign l (delete key ev) ;; ret v
  | None => raise (KeyError key)
  end.
(** [event[key] = v] *)
Definition dict_setitem (l : loc) (key : string) (v : value) : M unit :=
  ev ← deref l ; assign l (<[key := v]> ev).
(** [event.items()], read when the loop starts; the loop below only rebinds
    keys that are already present, which leaves the view's keys alone. *)
Definition dict_items (l : loc) : M (list (string * value)) :=
  ev ← deref l ; ret (map_to_list ev).
(** [v.get(key)] on a value that need not be a mapping *)
Definition value_get (v : value) (key : string) : M value :=
  match v with
  | VDict d => ret (fields_get d key)
  | _ => raise (AttributeError "get")
  end.

(** Truth value of an optional string: [None] and [''] are false. *)
Definition truthy (s : option string) : bool :=
  match s with Some (String _ _) => true | _ => false end.

(** [if s: params[key] = s] *)
Definition set_if_truthy (key : string) (s : option string)
    (params : gmap string param) : gmap string param :=
  match s with
  | Some v => if truthy s then <[key := PStr v]> params else params
  | None => params
  end.

(** ** Transport

    [requests.get] followed by [raise_for_status] and [response.json()].
    The API answers from [net]; once that is used up the network is down
    and every further request fails. *)
Definition requests_get (req : request) : M body := λ w,
  match net w with
  | [] => Some (Raise (RequestException "connection lost"), set_net [] (sent w ++ [req]) w)
  | Failed detail :: rest =>
      Some (Raise (RequestException detail), set_net rest (sent w ++ [req]) w)
  | Answer data :: rest => Some (Return data, set_net rest (sent w ++ [req]) w)
  end.

(** What [requests.get] raises on anything but an answer. *)
Definition transport_error (w : world) : option exn :=
  match net w with
  | [] => Some (RequestException "connection lost")
  | Failed detail :: _ => Some (RequestException detail)
  | Answer _ :: _ => None
  end.

(** [data.get('objects', [])] *)
Definition json_objects (data : body) : list obj := default [] (body_objects data).

(** [data.get("events", [])]: the event mappings decoded from the answer
    are new objects in the store. *)
Definition events_of (data : body) : list event := default [] (body_events data).
Definition json_events (data : body) : M (list loc) := λ w,
  let events := events_of data in
  Some (Return (seq (length (heap w)) (length events)), set_heap (heap w ++ events) w).

(** ** [fetch_object_list] *)

Definition object_list_url (endpoint : string) : string :=
  "https://api.braintrust.dev/v1/" +:+ endpoint.

(** One turn of the [while True] loop: [None] for [break], else the
    parameters of the next request; with it the objects gathered so far. *)
Definition object_list_turn (endpoint : string) (limit : Z)
    (headers : option (list (string * string)))
    (params : gmap string param) (all_objects : list obj)
    : M (option (gmap string param) * list obj) :=
  try_except
    (data ← requests_get (Request (object_list_url endpoint) headers params) ;
     let items := json_objects data in
     let all_objects := all_objects ++ items in
     if Z.of_nat (length items) <? limit then ret (None, all_objects)
     else match last items with
          | Some o => ret (Some (<["starting_after" := PStr (obj_id o)]> params), all_objects)
          | None => raise IndexError
          end)
    (λ e, if is_request_exception e
          then logger (ErrFetchObjectList endpoint e) ;; raise e
          else logger (ErrUnexpectedObjectList e) ;; raise e).

Fixpoint object_list_loop (fuel : nat) (endpoint : string) (limit : Z)
    (headers : option (list (string * string)))
    (params : gmap string param) (all_objects : list obj) : M (list obj) :=
  match fuel with
  | O => λ _, None
  | S fuel =>
      r ← object_list_turn endpoint limit headers params all_objects ;
      match r with
      | (None, all_objects) => ret all_objects
      | (Some params, all_objects) =>
          object_list_loop fuel endpoint limit headers params all_objects
      end
  end.

(** Every turn that goes on consumes one answer of [net], and an exhausted
    [net] makes the request fail, so one more turn than [net] has answers
    is always enough. *)
Definition fetch_object_list (endpoint : string) (limit : Z)
    (starting_after project_id project_name : option string)
    (headers : option (list (string * string))) : M (list obj) := λ w,
  let params := set_if_truthy "starting_after" starting_after {["limit" := PInt limit]} in
  let params := set_if_truthy "project_id" project_id params in
  let params := set_if_truthy "project_name" project_name params in
  object_list_loop (S (length (net w))) endpoint limit headers params [] w.

(** ** [fetch_events] *)

Definition events_url (endpoint object_id : string) : string :=
  "https://api.braintrust.dev/v1/" +:+ endpoint +:+ "/" +:+ object_id +:+ "/fetch".

(** One turn of the loop: the cursor of the answer and the events so far. *)
Definition events_turn (object_id endpoint : string) (limit : Z)
    (headers : option (list (string * string)))
    (cursor : option string) (object_events : list loc)
    : M (option string * list loc) :=
  try_except
    (let params := set_if_truthy "cursor" cursor {["limit" := PInt limit]} in
     data ← requests_get (Request (events_url endpoint object_id) headers params) ;
     events ← json_events data ;
     ret (body_cursor data, object_events ++ events))
    (λ e, if is_request_exception e
          then logger (ErrFetchEvents endpoint object_id e) ;; raise e
          else logger (ErrUnexpectedEvents e) ;; raise e).

Fixpoint events_loop (fuel : nat) (object_id endpoint : string) (limit : Z)
    (headers : option (list (string * string)))
    (cursor : option string) (object_events : list loc) : M (list loc) :=
  match fuel with
  | O => λ _, None
  | S fuel =>
      r ← events_turn object_id endpoint limit headers cursor object_events ;
      let '(cursor, object_events) := r in
      if truthy cursor
      then events_loop fuel object_id endpoint limit headers cursor object_events
      else ret object_events
  end.

Definition fetch_events (object_id endpoint : string) (limit : Z)
    (headers : option (list (string * string))) : M (list loc) := λ w,
  events_loop (S (length (net w))) object_id endpoint limit headers None [] w.

(** The requests a listing sends when the API answers with [pages] and
    then one more page: the first carries the caller's parameters, each
    later one the id of the last object of the page before it. *)
Fixpoint object_list_requests (endpoint : string)
    (headers : option (list (string * string)))
    (params : gmap string param) (pages : list (list obj)) : list request :=
  Request (object_list_url endpoint) headers params ::
  match pages with
  | [] => []
  | page :: pages =>
      match last page with
      | Some o =>
          object_list_requests endpoint headers
            (<["starting_after" := PStr (obj_id o)]> params) pages
      | None => []
      end
  end.

(** The requests an event fetch sends when the API answers with the
    bodies [more] and then one more: the first carries only the limit,
    each later one the cursor of the answer before it. *)
Definition events_requests (object_id endpoint : string) (limit : Z)
    (headers : option (list (string * string))) (more : list body) : list request :=
  Request (events_url endpoint object_id) headers {["limit" := PInt limit]} ::
  ((λ d, Request (events_url endpoint object_id) headers
           (set_if_truthy "cursor" (body_cursor d) {["limit" := PInt limit]})) <$> more).

(** ** File system and the [csv] writer *)

(** Paths are relative, with [/] between their components; two paths
    are the same file only if they are the same string, as on a
    case-sensitive system for paths without [.], [..], doubled or trailing
    [/].  A world describes a file system: no name in [dirs], [files] or
    [denied] holds a NUL byte.  File names go to the system in UTF-8,
    which holds every text; the contents of a file are encoded as the
    locale says, which may not (see [unencodable]). *)
Definition slash : Ascii.ascii := Ascii.ascii_of_nat 47.
Definition nul : Ascii.ascii := Ascii.zero.

Fixpoint has_char (c : Ascii.ascii) (s : string) : bool :=
  match s with
  | EmptyString => false
  | String a rest => if decide (a = c) then true else has_char c rest
  end.

(** The path itself after its ancestors, outermost first:
    [a], [a/b], [a/b/c] for [a/b/c]. *)
Fixpoint path_prefixes_from (seen rest : string) : list string :=
  match rest with
  | EmptyString => [seen]
  | String a rest =>
      if decide (a = slash)
      then seen :: path_prefixes_from (seen +:+ String a EmptyString) rest
      else path_prefixes_from (seen +:+ String a EmptyString) rest
  end.
Definition path_prefixes (path : string) : list string := path_prefixes_from "" path.

(** [os.path.dirname]: the directory a path lies in, if it names one. *)
Definition path_parent (path : string) : option string :=
  match reverse (path_prefixes path) with
  | _ :: parent :: _ => Some parent
  | _ => None
  end.

(** [os.mkdir(path)] with the [OSError] of an existing directory
    swallowed, as [os.makedirs(..., exist_ok=True)] does. *)
Definition mkdir (path : string) : M unit := λ w,
  if decide (path ∈ dirs w) then Some (Return tt, w)
  else if decide (path ∈ dom (files w)) then Some (Raise (IOError "FileExistsError"), w)
  else if decide (path ∈ denied w) then Some (Raise (IOError "PermissionError"), w)
  else Some (Return tt, set_dirs ({[path]} ∪ dirs w) w).

(** [os.makedirs(path, exist_ok=True)]: every missing ancestor is made,
    outermost first, then the directory itself; the directories made
    before a failure stay.  A name with a NUL byte, which Python rejects
    with a [ValueError], is not told apart here: the script passes
    [experiment] and [dataset], and what is proved of [write_to_csv] for
    other directory names asks for a name without NUL byte where it
    matters. *)
Definition makedirs (path : string) : M unit := for_each (path_prefixes path) mkdir.

(** [open(filename, "w")]: the file is created or emptied.  The
    directory it lies in must exist.  A name with a NUL byte is rejected
    by Python with a [ValueError] before the system is asked; no such
    name is in [dirs] or [denied] of a world that describes a file system,
    so the tests below come out there as they do in Python, whatever
    their order. *)
Definition open_for_writing (filename : string) : M unit := λ w,
  if decide (filename ∈ dirs w) then Some (Raise (IOError "IsADirectoryError"), w)
  else if decide (filename ∈ denied w) then Some (Raise (IOError "PermissionError"), w)
  else if has_char nul filename then Some (Raise (ValueError "embedded null byte"), w)
  else match path_parent filename with
       | Some parent =>
           if decide (parent ∈ dirs w)
           then Some (Return tt, set_files (<[filename := []]> (files w)) w)
           else if decide (parent ∈ dom (files w))
                then Some (Raise (IOError "NotADirectoryError"), w)
                else Some (Raise (IOError "FileNotFoundError"), w)
       | None => Some (Return tt, set_files (<[filename := []]> (files w)) w)
       end.

(** The text of a cell that must be encoded as it stands, if there is
    one: numbers, booleans and [None] are written in ASCII. *)
Definition cell_text (v : value) : option string :=
  match v with VStr s => Some s | _ => None end.

(** The first text of a row that the file's encoding cannot hold; the
    empty text needs no encoding. *)
Definition first_unencodable (w : world) (row : list value) : option string :=
  head (filter (λ s, s ≠ "" ∧ s ∈ unencodable w) (omap cell_text row)).

(** [writer.writerow(row)] of the underlying [csv.writer]: the row is
    written as one line, or not at all when a text cannot be encoded. *)
Definition writerow (filename : string) (row : list value) : M unit := λ w,
  match first_unencodable w row with
  | Some text => Some (Raise (UnicodeEncodeError text), w)
  | None =>
      Some (Return tt,
            set_files (<[filename := default [] (files w !! filename) ++ [row]]> (files w)) w)
  end.

(** [DictWriter._dict_to_list] with [restval=''] and [extrasaction='raise'] *)
Definition dict_to_list (fieldnames : list string) (rowdict : event) : M (list value) :=
  if forallb (λ k, bool_decide (k ∈ fieldnames)) (elements (dom rowdict))
  then ret ((λ k, default (VStr "") (rowdict !! k)) <$> fieldnames)
  else raise (ValueError "dict contains fields not in fieldnames").

(** [DictWriter.writeheader] *)
Definition writeheader (filename : string) (fieldnames : list string) : M unit :=
  writerow filename (VStr <$> fieldnames).

(** [DictWriter.writerows] *)
Definition writerows (filename : string) (fieldnames : list string) (rows : list loc) : M unit :=
  for_each rows (λ l,
    rowdict ← deref l ; row ← dict_to_list fieldnames rowdict ; writerow filename row).

(** [sorted(fieldnames)] for a set of strings *)
Definition sorted (fieldnames : gset string) : list string :=
  merge_sort String.le (elements fieldnames).

Definition csv_path (directory object_id : string) : string :=
  "braintrust_data/" +:+ directory +:+ "/" +:+ object_id +:+ ".csv".

(** The row [DictWriter] makes of a record: one cell per header field,
    the empty string where the record has no such field. *)
Definition row_of (fieldnames : list string) (record : event) : list value :=
  (λ k, default (VStr "") (record !! k)) <$> fieldnames.

(** [path] is a directory already, or nothing stands where it would be
    made and the system does not refuse it. *)
Definition creatable (w : world) (path : string) : Prop :=
  path ∈ dirs w ∨ ((path ∉ dom (files w)) ∧ (path ∉ denied w)).

#[local] Instance creatable_dec w path : Decision (creatable w path).
Proof. unfold creatable. apply _. Defined.

(** The directory [path] exists already or can be created, ancestors
    included. *)
Definition can_makedirs (path : string) (w : world) : Prop :=
  Forall (creatable w) (path_prefixes path).

(** A single path component that names a directory of its own: not
    empty, not [.] or [..], without [/] and without NUL byte. *)
Definition plain_name (s : string) : Prop :=
  s ≠ "" ∧ s ≠ "." ∧ s ≠ ".." ∧ has_char slash s = false ∧ has_char nul s = false.

(** A text that can be part of a file name: without [/] and NUL byte. *)
Definition plain_stem (s : string) : Prop :=
  has_char slash s = false ∧ has_char nul s = false.

(** The output directories can be made and the output file opened: the
    directory and the object's id are plain, nothing blocks the two
    directories, and the file's path is neither a directory nor refused. *)
Definition fs_ready (directory object_id : string) (w : world) : Prop :=
  plain_name directory ∧ plain_stem object_id ∧
  can_makedirs "braintrust_data" w ∧
  can_makedirs ("braintrust_data/" +:+ directory) w ∧
  (csv_path directory object_id ∉ dirs w) ∧
  (csv_path directory object_id ∉ denied w).

(** Every field name and every text cell of the record can be encoded. *)
Definition encodable_record (w : world) (record : event) : Prop :=
  ∀ k v, record !! k = Some v →
    (k = "" ∨ k ∉ unencodable w) ∧
    ∀ s, cell_text v = Some s → s = "" ∨ s ∉ unencodable w.

(** The directories that exist once the two output directories are made. *)
Definition output_dirs (directory : string) (w : world) : gset string :=
  list_to_set (path_prefixes ("braintrust_data/" +:+ directory))
  ∪ (list_to_set (path_prefixes "braintrust_data") ∪ dirs w).

(** ** Run bookkeeping of [download_data] *)

Record tally : Type := Tally {
  failed_endpoints : list string;
  failed_objects : list string;
  objects_without_events : list string }.

Section Downloader.

(** [json.dumps] with its default arguments (Python's standard library). *)
Variable json_dumps : value → string.

(** ** [normalize_event] *)

Definition normalize_event (event : loc) : M loc :=
  input ← dict_get event "input" ;
  (if is_dict input then
     input_data ← dict_pop event "input" ;
     v ← value_get input_data "input" ; dict_setitem event "input" v ;;
     v ← value_get input_data "output" ; dict_setitem event "output" v ;;
     v ← value_get input_data "expected" ; dict_setitem event "expected" v ;;
     v ← value_get input_data "metadata" ; dict_setitem event "metadata" v
   else ret tt) ;;
  items ← dict_items event ;
  for_each items (λ '(key, v),
    if is_nested v then dict_setitem event key (VStr (json_dumps v)) else ret tt) ;;
  ret event.

(** What [normalize_event] leaves in the mapping, as a function of what it
    found there: first the promotion of a mapping-valued [input], then the
    serialisation of every nested value. *)
Definition promote (ev : event) : event :=
  match ev !! "input" with
  | Some (VDict d) =>
      <["metadata" := fields_get d "metadata"]>
      (<["expected" := fields_get d "expected"]>
      (<["output" := fields_get d "output"]>
      (<["input" := fields_get d "input"]> (delete "input" ev))))
  | _ => ev
  end.
Definition flatten (v : value) : value :=
  if is_nested v then VStr (json_dumps v) else v.
Definition normalized (ev : event) : event := flatten <$> promote ev.

(** The effect of one turn of the serialisation loop on the mapping. *)
Definition flatten_item (ev : event) (item : string * value) : event :=
  if is_nested item.2 then <[item.1 := VStr (json_dumps item.2)]> ev else ev.

(** ** [write_to_csv] *)

(** The [try] block is cut where [filename] gets bound.  Before that point
    the [except IOError] clause cannot format its message: evaluating
    [filename] raises [UnboundLocalError] out of the handler, and nothing is
    logged. *)
Definition write_to_csv (events : list loc) (directory object_id : string) : M unit :=
  try_except
    (makedirs "braintrust_data" ;;
     makedirs ("braintrust_data/" +:+ directory))
    (λ e, if is_io_error e then raise (UnboundLocalError "filename")
          else logger (ErrUnexpectedCsv object_id e) ;; raise e) ;;
  match events with
  | [] => logger (WarnNoEvents object_id)
  | _ =>
      let filename := csv_path directory object_id in
      try_except
        (normalized_events ← map_m normalize_event events ;
         fieldnames ← fold_m (λ fieldnames event,
                                ev ← deref event ; ret (fieldnames ∪ dom ev))
                             (∅ : gset string) normalized_events ;
         open_for_writing filename ;;
         writeheader filename (sorted fieldnames) ;;
         writerows filename (sorted fieldnames) normalized_events)
        (λ e, if is_io_error e
              then logger (ErrWriteCsv filename e) ;; raise e
              else logger (ErrUnexpectedCsv object_id e) ;; raise e)
  end.

(** ** [download_data] *)

(** The outer [except Exception] clause, with the value [failed_objects]
    has when the exception arrives. *)
Definition on_fatal {A} (endpoint : string) (failed : list string) (e : exn) : M A :=
  logger (ErrDownload endpoint e) ;;
  logger (ErrFailedObjects endpoint failed) ;;
  raise e.

(** The body of the [for obj in objects_list] loop. *)
Definition process_object (endpoint : string) (headers : option (list (string * string)))
    (t : tally) (o : obj) : M tally :=
  try_except
    (object_events ← fetch_events (obj_id o) endpoint 100 headers ;
     match object_events with
     | [] => ret (Tally (failed_endpoints t) (failed_objects t)
                        (objects_without_events t ++ [obj_id o]))
     | _ => write_to_csv object_events endpoint (obj_id o) ;; ret t
     end)
    (λ e, logger (ErrProcessing endpoint (obj_id o) e) ;;
          ret (Tally (failed_endpoints t ++ [endpoint]) (failed_objects t ++ [obj_id o])
                     (objects_without_events t))).

(** The log lines after the loop, still inside the outer [try]. *)
Definition log_summary (endpoint : string) (objects_list : list obj) (t : tally) : M unit :=
  logger (InfoComplete endpoint) ;;
  logger (InfoTotal (length objects_list)) ;;
  logger (InfoNoEventsCount (length (objects_without_events t))) ;;
  match objects_without_events t with
  | [] => ret tt
  | ids => logger (InfoNoEventsIds ids)
  end.

(** The outer [try] is written piecewise, each piece with the handler as
    it stands there; the three lists start empty. *)
Definition download_data (endpoint : string) (project_id project_name : option string)
    (headers : option (list (string * string))) : M unit :=
  objects_list ← try_except
    (fetch_object_list endpoint 10 None project_id project_name headers)
    (on_fatal endpoint []) ;
  t ← fold_m (λ t o, try_except (process_object endpoint headers t o)
                                  (on_fatal endpoint (failed_objects t)))
             (Tally [] [] []) objects_list ;
  try_except (log_summary endpoint objects_list t)
             (on_fatal endpoint (failed_objects t)) ;;
  match failed_endpoints t with
  | [] => ret tt
  | failed => logger (ErrFailedEndpoints failed)
  end.

(** ** [main] *)

(** The three log lines of [main] itself.  Each is written after
    everything the two runs have logged, so they are kept beside the
    world's log, of which they are the end. *)
Inductive main_line : Type :=
  | ErrApiKeyNotSet
  | InfoDownloadCompleted
  | ErrFatal (e : exn).

(** How [main] ends: by returning, or by [sys.exit(code)]. *)
Inductive main_end : Type :=
  | Returns
  | SysExit (code : Z).

(** The request headers [main] builds from the API key. *)
Definition bearer_headers (api_key : string) : list (string * string) :=
  [("Authorization", "Bearer " +:+ api_key); ("Content-Type", "application/json")].

(** [api_key] is what [os.getenv('BRAINTRUST_API_KEY')] gives once the
    [.env] file has been loaded. *)
Definition main (api_key project_id project_name : option string) (w : world)
    : option (main_end * list main_line * world) :=
  match api_key with
  | Some (String a key) =>
      let headers := Some (bearer_headers (String a key)) in
      match (download_data "experiment" project_id project_name headers ;;
             download_data "dataset" project_id project_name headers) w with
      | Some (Return _, w') => Some (Returns, [InfoDownloadCompleted], w')
      | Some (Raise e, w') => Some (SysExit 1, [ErrFatal e], w')
      | None => None
      end
  | _ => Some (SysExit 1, [ErrApiKeyNotSet], w)
  end.

(** ** What a run does with each object *)

Inductive object_outcome : Type :=
  | Written                 (* events fetched and the table written *)
  | NoEvents                (* the fetch returned no event *)
  | FailedWith (e : exn).   (* the fetch or the write raised [e] *)

(** [handled endpoint headers o w out w']: starting in [w], the fetch and
    write for [o] end as [out], in world [w']. *)
Inductive handled (endpoint : string) (headers : option (list (string * string)))
    (o : obj) (w : world) : object_outcome → world → Prop :=
  | handled_written events w1 w2 :
      fetch_events (obj_id o) endpoint 100 headers w = Some (Return events, w1) →
      events ≠ [] →
      write_to_csv events endpoint (obj_id o) w1 = Some (Return tt, w2) →
      handled endpoint headers o w Written w2
  | handled_no_events w1 :
      fetch_events (obj_id o) endpoint 100 headers w = Some (Return [], w1) →
      handled endpoint headers o w NoEvents w1
  | handled_fetch_failed e w1 :
      fetch_events (obj_id o) endpoint 100 headers w = Some (Raise e, w1) →
      handled endpoint headers o w (FailedWith e)
        (add_log (ErrProcessing endpoint (obj_id o) e) w1)
  | handled_write_failed events e w1 w2 :
      fetch_events (obj_id o) endpoint 100 headers w = Some (Return events, w1) →
      events ≠ [] →
      write_to_csv events endpoint (obj_id o) w1 = Some (Raise e, w2) →
      handled endpoint headers o w (FailedWith e)
        (add_log (ErrProcessing endpoint (obj_id o) e) w2).

(** The objects of a list handled one after the other, each from the
    world the one before it left. *)
Inductive handled_all (endpoint : string) (headers : option (list (string * string)))
    : list obj → world → list object_outcome → world → Prop :=
  | handled_nil w : handled_all endpoint headers [] w [] w
  | handled_cons o objects w out w1 outs w2 :
      handled endpoint headers o w out w1 →
      handled_all endpoint headers objects w1 outs w2 →
      handled_all endpoint headers (o :: objects) w (out :: outs) w2.

Definition is_failed (out : object_outcome) : bool :=
  match out with FailedWith _ => true | _ => false end.
Definition is_no_events (out : object_outcome) : bool :=
  match out with NoEvents => true | _ => false end.

(** The ids of the objects whose outcome satisfies [p], in list order. *)
Definition ids_where (p : object_outcome → bool)
    (objects : list obj) (outs : list object_outcome) : list string :=
  (λ x, obj_id x.1) <$> filter (λ x, p x.2 = true) (zip objects outs).

(** The tally after an object with outcome [out]. *)
Definition record_outcome (endpoint : string) (t : tally) (o : obj)
    (out : object_outcome) : tally :=
  match out with
  | Written => t
  | NoEvents =>
      Tally (failed_endpoints t) (failed_objects t) (objects_without_events t ++ [obj_id o])
  | FailedWith _ =>
      Tally (failed_endpoints t ++ [endpoint]) (failed_objects t ++ [obj_id o])
            (objects_without_events t)
  end.

(** The log lines that end a run that got past the listing. *)
Definition summary_lines (endpoint : string) (total : nat)
    (without_events : list string) (failures : nat) : list log_entry :=
  [InfoComplete endpoint; InfoTotal total; InfoNoEventsCount (length without_events)]
  ++ match without_events with [] => [] | ids => [InfoNoEventsIds ids] end
  ++ match failures with O => [] | _ => [ErrFailedEndpoints (replicate failures endpoint)] end.

(** What every request of one listing has in common with the first. *)
Definition listing_request (endpoint : string) (headers : option (list (string * string)))
    (params : gmap string param) (q : request) : Prop :=
  req_url q = object_list_url endpoint ∧ req_headers q = headers ∧
  ∀ k, k ≠ "starting_after" → req_params q !! k = params !! k.

(** ** Sample inputs *)

Definition world_of (h : list event) (answers : list response) : world :=
  World h answers [] ∅ ∅ ∅ ∅ [].

(** The event of the specification's promotion example. *)
Definition promotion_event : event :=
  {[ "input" := VDict [("input", VStr "a"); ("output", VStr "b");
                       ("expected", VStr "c"); ("metadata", VDict [("k", VInt 1)])] ]}.

Definition scalar_event : event :=
  {[ "id" := VStr "ev1" ]} ∪ {[ "score" := VInt 3 ]} ∪ {[ "error" := VNone ]}.

(** The records of the specification's header example. *)
Definition record_a : event := {[ "a" := VInt 1 ]}.
Definition record_b : event := {[ "b" := VInt 2 ]}.

Definition object_x : obj := Obj "X" [].
Definition object_y : obj := Obj "Y" [].
Definition object_z : obj := Obj "Z" [].

(** A listing of two full pages' worth: a page of two, then a page of one,
    for a limit of two. *)
Definition two_pages : list response :=
  [Answer (Body (Some [object_x; object_y]) None None);
   Answer (Body (Some [object_z]) None None)].

(** An event stream in two answers; the last one is as long as the first
    and has an empty cursor. *)
Definition two_cursors : list response :=
  [Answer (Body None (Some [record_a]) (Some "c1"));
   Answer (Body None (Some [record_b]) (Some ""))].

(** A run over the objects X and Y: the fetch for X fails, Y has two events. *)
Definition x_fails_y_succeeds : list response :=
  [Answer (Body (Some [object_x; object_y]) None None);
   Failed "500";
   Answer (Body None (Some [record_a; record_b]) None)].

(** An event whose [input] is a list. *)
Definition list_input_event : event :=
  {[ "input" := VList [VInt 1; VInt 2] ]} ∪ {[ "output" := VStr "b" ]}.

(** A listing that fails on its second page, for a limit of two. *)
Definition second_page_fails : list response :=
  [Answer (Body (Some [object_x; object_y]) None None); Failed "502"].

(** An event stream that fails on its second answer. *)
Definition second_answer_fails : list response :=
  [Answer (Body None (Some [record_a]) (Some "c1")); Failed "502"].

(** Experiments: one object, whose fetch fails.  Datasets: none. *)
Definition experiment_fails_no_datasets : list response :=
  [Answer (Body (Some [object_x]) None None); Failed "500";
   Answer (Body (Some []) None None)].

(** A world where the system refuses to create [path]. *)
Definition world_denying (path : string) (h : list event) : world :=
  World h [] [] ∅ ∅ {[path]} ∅ [].

(** A run whose listing fails. *)
Definition listing_down : list response := [Failed "503"].

(** A store in a world whose file encoding cannot hold [text]. *)
Definition world_unencodable (text : string) (h : list event) : world :=
  World h [] [] ∅ ∅ ∅ {[text]} [].

(** An event with a text the encoding of the example cannot hold. *)
Definition snowman_event : event := {[ "a" := VStr "snowman" ]}.

(** An object id with a NUL byte. *)
Definition nul_id : string := String nul "E1".

(** * Properties *)

(** ** Running a computation one step at a time *)

Lemma bind_return {A B} (m : M A) (k : A → M B) w a w' :
  m w = Some (Return a, w') → (m ≫= k) w = k a w'.
Proof. unfold mbind, M_bind, bind. by intros ->. Qed.

Lemma bind_raise {A B} (m : M A) (k : A → M B) w e w' :
  m w = Some (Raise e, w') → (m ≫= k) w = Some (Raise e, w').
Proof. unfold mbind, M_bind, bind. by intros ->. Qed.

Lemma bind_assoc {A B C} (m : M A) (k1 : A → M B) (k : B → M C) w :
  ((m ≫= k1) ≫= k) w = (m ≫= (λ x, k1 x ≫= k)) w.
Proof. unfold mbind, M_bind, bind. by destruct (m w) as [[[]]|]. Qed.

Lemma try_return {A} (m : M A) h w a w' :
  m w = Some (Return a, w') → try_except m h w = Some (Return a, w').
Proof. unfold try_except. by intros ->. Qed.

Lemma try_raise {A} (m : M A) h w e w' :
  m w = Some (Raise e, w') → try_except m h w = h e w'.
Proof. unfold try_except. by intros ->. Qed.

(** ** The store *)

Lemma put_put l a b w : put l a (put l b w) = put l a w.
Proof. unfold put, set_heap. simpl. by rewrite list_insert_insert_eq. Qed.

Lemma put_same l ev w : heap w !! l = Some ev → put l ev w = w.
Proof. intros H. destruct w. unfold put, set_heap. simpl in *. by rewrite list_insert_id. Qed.

Lemma heap_put l a w ev : heap w !! l = Some ev → heap (put l a w) !! l = Some a.
Proof.
  intros H. unfold put. simpl. apply list_lookup_insert_eq.
  by eapply lookup_lt_Some.
Qed.

Lemma heap_put_ne l l' a w : l ≠ l' → heap (put l a w) !! l' = heap w !! l'.
Proof. intros H. unfold put. simpl. by apply list_lookup_insert_ne. Qed.

Lemma deref_eq l w ev : heap w !! l = Some ev → deref l w = Some (Return ev, w).
Proof. unfold deref. by intros ->. Qed.

Lemma dict_get_eq l key w ev :
  heap w !! l = Some ev → dict_get l key w = Some (Return (default VNone (ev !! key)), w).
Proof. intros H. unfold dict_get. by rewrite (bind_return _ _ _ _ _ (deref_eq _ _ _ H)). Qed.

Lemma dict_pop_eq l key w ev v :
  heap w !! l = Some ev → ev !! key = Some v →
  dict_pop l key w = Some (Return v, put l (delete key ev) w).
Proof.
  intros H Hk. unfold dict_pop.
  rewrite (bind_return _ _ _ _ _ (deref_eq _ _ _ H)), Hk. done.
Qed.

Lemma dict_setitem_eq l key v w ev :
  heap w !! l = Some ev →
  dict_setitem l key v w = Some (Return tt, put l (<[key := v]> ev) w).
Proof. intros H. unfold dict_setitem. by rewrite (bind_return _ _ _ _ _ (deref_eq _ _ _ H)). Qed.

Lemma dict_items_eq l w ev :
  heap w !! l = Some ev → dict_items l w = Some (Return (map_to_list ev), w).
Proof. intros H. unfold dict_items. by rewrite (bind_return _ _ _ _ _ (deref_eq _ _ _ H)). Qed.

(** ** Transport *)

Lemma requests_get_answer req w data rest :
  net w = Answer data :: rest →
  requests_get req w = Some (Return data, set_net rest (sent w ++ [req]) w).
Proof. unfold requests_get. by intros ->. Qed.

Lemma requests_get_error req w e :
  transport_error w = Some e →
  requests_get req w = Some (Raise e, set_net (tail (net w)) (sent w ++ [req]) w)
  ∧ is_request_exception e = true.
Proof.
  unfold transport_error, requests_get.
  destruct (net w) as [|[detail|data] rest]; intros [= <-]; done.
Qed.

(** ** [fetch_object_list] *)

Section ObjectList.

Variables (endpoint : string) (limit : Z) (headers : option (list (string * string))).

Lemma object_list_turn_more params all w data rest o :
  net w = Answer data :: rest →
  limit ≤ Z.of_nat (length (json_objects data)) →
  last (json_objects data) = Some o →
  object_list_turn endpoint limit headers params all w
  = Some (Return (Some (<["starting_after" := PStr (obj_id o)]> params),
                  all ++ json_objects data),
          set_net rest (sent w ++ [Request (object_list_url endpoint) headers params]) w).
Proof.
  intros Hnet Hfull Hlast. unfold object_list_turn. apply try_return.
  erewrite bind_return by (by apply requests_get_answer).
  rewrite (proj2 (Z.ltb_ge _ _) Hfull), Hlast. done.
Qed.

Lemma object_list_turn_last params all w data rest :
  net w = Answer data :: rest →
  Z.of_nat (length (json_objects data)) < limit →
  object_list_turn endpoint limit headers params all w
  = Some (Return (None, all ++ json_objects data),
          set_net rest (sent w ++ [Request (object_list_url endpoint) headers params]) w).
Proof.
  intros Hnet Hshort. unfold object_list_turn. apply try_return.
  erewrite bind_return by (by apply requests_get_answer).
  rewrite (proj2 (Z.ltb_lt _ _) Hshort). done.
Qed.

Lemma object_list_turn_error params all w e :
  transport_error w = Some e →
  object_list_turn endpoint limit headers params all w
  = Some (Raise e,
          add_log (ErrFetchObjectList endpoint e)
            (set_net (tail (net w))
               (sent w ++ [Request (object_list_url endpoint) headers params]) w)).
Proof.
  intros He. unfold object_list_turn.
  destruct (requests_get_error (Request (object_list_url endpoint) headers params) _ _ He)
    as [Hget Hreq].
  erewrite try_raise by (by apply bind_raise). by rewrite Hreq.
Qed.

Lemma object_list_loop_pages (full : list body) (final : body) rest :
  Forall (λ d, limit ≤ Z.of_nat (length (json_objects d))) full →
  Z.of_nat (length (json_objects final)) < limit →
  ∀ fuel params all w,
    net w = (Answer <$> full) ++ Answer final :: rest →
    (length full < fuel)%nat →
    object_list_loop fuel endpoint limit headers params all w
    = Some (Return (all ++ concat (json_objects <$> (full ++ [final]))),
            set_net rest
              (sent w ++ object_list_requests endpoint headers params
                           (json_objects <$> full)) w).
Proof.
  intros Hfull Hshort.
  induction Hfull as [|d full Hd Hfull IH]; intros fuel params all w Hnet Hfuel;
    (destruct fuel as [|fuel]; [simpl in Hfuel; lia|]); simpl in *.
  - erewrite bind_return by (by apply object_list_turn_last).
    by rewrite app_nil_r.
  - destruct (last (json_objects d)) as [o|] eqn:Hlast.
    2:{ apply last_None in Hlast. rewrite Hlast in Hd. simpl in *. lia. }
    erewrite bind_return by (by eapply object_list_turn_more).
    cbv beta iota. erewrite IH; [|done|lia].
    simpl. by rewrite <-!app_assoc.
Qed.

Lemma object_list_requests_spec (pages : list (list obj)) :
  Forall (λ page, page ≠ []) pages →
  ∀ params,
    length (object_list_requests endpoint headers params pages) = S (length pages) ∧
    object_list_requests endpoint headers params pages !! 0%nat
      = Some (Request (object_list_url endpoint) headers params) ∧
    ∀ i page o, pages !! i = Some page → last page = Some o →
      ∃ r, object_list_requests endpoint headers params pages !! S i = Some r ∧
           req_params r !! "starting_after" = Some (PStr (obj_id o)).
Proof.
  induction 1 as [|page pages Hpage Hpages IH]; intros params; simpl.
  - split; [done|]. split; [done|]. intros i page o Hi. by destruct i.
  - destruct (last page) as [o0|] eqn:Hlast; [|by apply last_None in Hlast].
    destruct (IH (<["starting_after" := PStr (obj_id o0)]> params)) as (Hlen & Hhd & Hrest).
    split; [by rewrite Hlen|]. split; [done|].
    intros [|i] page' o Hi Hlast'; simpl in *.
    + injection Hi as <-. rewrite Hlast in Hlast'. injection Hlast' as <-.
      eexists. split; [exact Hhd|]. simpl. by rewrite lookup_insert_eq.
    + by eapply Hrest.
Qed.

End ObjectList.

(** C2.  Let the API answer the listing with pages that are not short,
    then with one page shorter than [limit] (possibly empty), then with
    anything at all.  [fetch_object_list] returns the objects of all these
    pages, in order, each once; it sends one request per page and leaves
    the later answers alone; the first request carries the caller's
    parameters and each later one carries, as [starting_after], the id of
    the last object of the page before it. *)
Theorem fetch_object_list_pages endpoint limit starting_after project_id project_name
    headers (full : list body) (final : body) rest w :
  net w = (Answer <$> full) ++ Answer final :: rest →
  Forall (λ d, limit ≤ Z.of_nat (length (json_objects d))) full →
  Z.of_nat (length (json_objects final)) < limit →
  let params :=
    set_if_truthy "project_name" project_name
      (set_if_truthy "project_id" project_id
         (set_if_truthy "starting_after" starting_after {["limit" := PInt limit]})) in
  let requests := object_list_requests endpoint headers params (json_objects <$> full) in
  fetch_object_list endpoint limit starting_after project_id project_name headers w
    = Some (Return (concat (json_objects <$> (full ++ [final]))),
            set_net rest (sent w ++ requests) w) ∧
  length requests = S (length full) ∧
  requests !! 0%nat = Some (Request (object_list_url endpoint) headers params) ∧
  ∀ i d o, full !! i = Some d → last (json_objects d) = Some o →
    ∃ r, requests !! S i = Some r ∧
         req_params r !! "starting_after" = Some (PStr (obj_id o)).
Proof.
  intros Hnet Hfull Hshort params requests.
  destruct (object_list_requests_spec endpoint headers (json_objects <$> full))
    with (params := params) as (Hlen & Hhd & Hnext).
  { apply Forall_fmap. eapply Forall_impl; [exact Hfull|].
    intros d Hd Hnil. change (json_objects d = []) in Hnil.
    cbv beta in Hd. rewrite Hnil in Hd. simpl in Hd. lia. }
  split; [|split; [by unfold requests; rewrite Hlen, length_fmap|split; [done|]]].
  - unfold fetch_object_list.
    erewrite object_list_loop_pages; [done..|].
    rewrite Hnet, length_app, length_fmap. simpl. lia.
  - intros i d o Hi Hlast. eapply Hnext; [|exact Hlast].
    by rewrite list_lookup_fmap, Hi.
Qed.

(** ** [fetch_events] *)

Section Events.

Variables (object_id endpoint : string) (limit : Z)
  (headers : option (list (string * string))).

Lemma events_turn_answer cursor evs w data rest :
  net w = Answer data :: rest →
  events_turn object_id endpoint limit headers cursor evs w
  = Some (Return (body_cursor data,
                  evs ++ seq (length (heap w)) (length (events_of data))),
          set_heap (heap w ++ events_of data)
            (set_net rest
               (sent w ++ [Request (events_url endpoint object_id) headers
                             (set_if_truthy "cursor" cursor {["limit" := PInt limit]})]) w)).
Proof.
  intros Hnet. unfold events_turn. apply try_return.
  erewrite bind_return by (by apply requests_get_answer).
  by erewrite bind_return by reflexivity.
Qed.

Lemma events_turn_error cursor evs w e :
  transport_error w = Some e →
  events_turn object_id endpoint limit headers cursor evs w
  = Some (Raise e,
          add_log (ErrFetchEvents endpoint object_id e)
            (set_net (tail (net w))
               (sent w ++ [Request (events_url endpoint object_id) headers
                             (set_if_truthy "cursor" cursor {["limit" := PInt limit]})]) w)).
Proof.
  intros He. unfold events_turn.
  destruct (requests_get_error
              (Request (events_url endpoint object_id) headers
                 (set_if_truthy "cursor" cursor {["limit" := PInt limit]})) _ _ He)
    as [Hget Hreq].
  erewrite try_raise by (by apply bind_raise). by rewrite Hreq.
Qed.

Lemma events_loop_pages (more : list body) (final : body) rest :
  Forall (λ d, truthy (body_cursor d) = true) more →
  truthy (body_cursor final) = false →
  ∀ fuel cursor evs w,
    net w = (Answer <$> more) ++ Answer final :: rest →
    (length more < fuel)%nat →
    events_loop fuel object_id endpoint limit headers cursor evs w
    = Some (Return (evs ++ seq (length (heap w))
                             (length (concat (events_of <$> (more ++ [final]))))),
            set_heap (heap w ++ concat (events_of <$> (more ++ [final])))
              (set_net rest
                 (sent w ++
                  ((λ c, Request (events_url endpoint object_id) headers
                           (set_if_truthy "cursor" c {["limit" := PInt limit]}))
                     <$> cursor :: (body_cursor <$> more))) w)).
Proof.
  intros Hmore Hlast.
  induction Hmore as [|d more Hd Hmore IH]; intros fuel cursor evs w Hnet Hfuel;
    (destruct fuel as [|fuel]; [simpl in Hfuel; lia|]); simpl in *.
  - erewrite bind_return by (by apply events_turn_answer).
    cbv beta iota. rewrite Hlast. unfold ret. by rewrite !app_nil_r.
  - erewrite bind_return by (by apply events_turn_answer).
    cbv beta iota. rewrite Hd. erewrite IH; [|done|lia].
    simpl. rewrite !length_app, seq_app, <-!app_assoc. done.
Qed.

Lemma transport_error_cases w :
  (∃ e, transport_error w = Some e) ∨ (∃ data rest, net w = Answer data :: rest).
Proof.
  unfold transport_error. destruct (net w) as [|[detail|data] rest]; eauto.
Qed.

(** The loop ends whatever the API answers; it touches no file, only adds
    to the log, and the references it returns are live. *)
Lemma events_loop_total fuel : ∀ cursor evs w,
  (length (net w) < fuel)%nat →
  Forall (λ l, (l < length (heap w))%nat) evs →
  ∃ r w',
    events_loop fuel object_id endpoint limit headers cursor evs w = Some (r, w') ∧
    dirs w' = dirs w ∧ files w' = files w ∧ denied w' = denied w ∧
    (∃ entries, log w' = log w ++ entries) ∧
    match r with
    | Return evs' => Forall (λ l, (l < length (heap w'))%nat) evs'
    | Raise _ => True
    end.
Proof.
  induction fuel as [|fuel IH]; intros cursor evs w Hfuel Hevs; [lia|]. simpl.
  destruct (transport_error_cases w) as [[e He]|(data & rest & Hnet)].
  - erewrite bind_raise by (by apply events_turn_error).
    eexists _, _. split; [done|]. simpl. repeat split; eauto.
  - erewrite bind_return by (by apply events_turn_answer). cbv beta iota.
    assert (Forall (λ l, (l < length (heap w ++ events_of data))%nat)
              (evs ++ seq (length (heap w)) (length (events_of data)))) as Hevs'.
    { rewrite length_app. apply Forall_app. split.
      - eapply Forall_impl; [exact Hevs|]. intros l Hl. simpl in Hl. lia.
      - apply Forall_seq. intros l Hl. lia. }
    destruct (truthy (body_cursor data)).
    + match goal with
      | |- context [events_loop _ _ _ _ _ ?c ?l ?w1] =>
          destruct (IH c l w1) as (r & w' & Hrun & Hd & Hf & Hden & [entries Hlog] & Hr)
      end; [|exact Hevs'|].
      { simpl. rewrite Hnet in Hfuel. simpl in Hfuel. lia. }
      exists r, w'. split; [exact Hrun|]. simpl in *. repeat split; eauto.
    + eexists _, _. split; [done|]. simpl. repeat split; try done.
      exists []. by rewrite app_nil_r.
Qed.

End Events.

Lemma fetch_events_total object_id endpoint limit headers w :
  ∃ r w',
    fetch_events object_id endpoint limit headers w = Some (r, w') ∧
    dirs w' = dirs w ∧ files w' = files w ∧ denied w' = denied w ∧
    (∃ entries, log w' = log w ++ entries) ∧
    match r with
    | Return evs => Forall (λ l, (l < length (heap w'))%nat) evs
    | Raise _ => True
    end.
Proof. unfold fetch_events. apply events_loop_total; [lia|constructor]. Qed.

(** C3.  Let the API answer the fetch with bodies that carry a non-empty
    cursor, then with one whose cursor is absent or empty, then with
    anything at all.  [fetch_events] returns the events of all these
    bodies, in order, as new mappings of the store; it sends one request
    per body and leaves the later answers alone, whatever the number of
    events in the last body; the first request carries no cursor and each
    later one the cursor of the answer before it.  With no event in any
    body the result is the empty list. *)
Theorem fetch_events_pages object_id endpoint limit headers
    (more : list body) (final : body) rest w :
  net w = (Answer <$> more) ++ Answer final :: rest →
  Forall (λ d, truthy (body_cursor d) = true) more →
  truthy (body_cursor final) = false →
  let events := concat (events_of <$> (more ++ [final])) in
  let requests := events_requests object_id endpoint limit headers more in
  fetch_events object_id endpoint limit headers w
    = Some (Return (seq (length (heap w)) (length events)),
            set_heap (heap w ++ events) (set_net rest (sent w ++ requests) w)) ∧
  length requests = S (length more) ∧
  (∃ r, requests !! 0%nat = Some r ∧ req_params r !! "cursor" = None) ∧
  (∀ i d, more !! i = Some d →
     ∃ r c, requests !! S i = Some r ∧ body_cursor d = Some c ∧ c ≠ "" ∧
            req_params r !! "cursor" = Some (PStr c)) ∧
  (events = [] →
     fetch_events object_id endpoint limit headers w
     = Some (Return [], set_net rest (sent w ++ requests) w)).
Proof.
  intros Hnet Hmore Hlast events requests.
  assert (fetch_events object_id endpoint limit headers w
    = Some (Return (seq (length (heap w)) (length events)),
            set_heap (heap w ++ events) (set_net rest (sent w ++ requests) w))) as Hrun.
  { unfold fetch_events.
    erewrite events_loop_pages; [|done|done|done|].
    - unfold requests, events_requests, events.
      by rewrite fmap_cons, <-list_fmap_compose.
    - rewrite Hnet, length_app, length_fmap. simpl. lia. }
  split; [done|]. split; [by unfold requests, events_requests; simpl; rewrite length_fmap|].
  split; [eexists; split; [done|]; simpl; by rewrite lookup_singleton_ne|]. split.
  - intros i d Hi. unfold requests, events_requests. simpl.
    rewrite list_lookup_fmap, Hi. simpl.
    rewrite Forall_lookup in Hmore. specialize (Hmore i d Hi).
    destruct (body_cursor d) as [[|a c]|]; try discriminate Hmore.
    eexists _, _. split; [done|]. split; [done|]. split; [done|].
    simpl. by rewrite lookup_insert_eq.
  - intros Hnil. rewrite Hrun, Hnil, app_nil_r. simpl. by destruct w.
Qed.

(** ** Paths *)

Lemma string_app_nil_r (s : string) : s +:+ "" = s.
Proof.
  induction s as [|a s IH]; [done|].
  change (String a (s +:+ "") = String a s). by rewrite IH.
Qed.

Lemma string_app_assoc (s t u : string) : (s +:+ t) +:+ u = s +:+ (t +:+ u).
Proof.
  induction s as [|a s IH]; [done|].
  change (String a ((s +:+ t) +:+ u) = String a (s +:+ (t +:+ u))). by rewrite IH.
Qed.

Lemma has_char_app c (s t : string) :
  has_char c (s +:+ t) = has_char c s || has_char c t.
Proof.
  induction s as [|a s IH]; [done|].
  change (has_char c (String a (s +:+ t)) = has_char c (String a s) || has_char c t).
  simpl. by case_decide.
Qed.

(** A path without [/] has no ancestor to make. *)
Lemma path_prefixes_from_plain s : ∀ seen,
  has_char slash s = false → path_prefixes_from seen s = [seen +:+ s].
Proof.
  induction s as [|a s IH]; intros seen Hs; simpl.
  - by rewrite string_app_nil_r.
  - simpl in Hs. case_decide; [done|]. rewrite IH by done.
    by rewrite string_app_assoc.
Qed.

Lemma path_prefixes_from_slash s rest : ∀ seen,
  has_char slash s = false →
  path_prefixes_from seen (s +:+ String slash rest)
  = (seen +:+ s) :: path_prefixes_from (seen +:+ s +:+ String slash "") rest.
Proof.
  induction s as [|a s IH]; intros seen Hs.
  - change (path_prefixes_from seen (String slash rest)
            = (seen +:+ "") :: path_prefixes_from (seen +:+ String slash "") rest).
    simpl. by rewrite string_app_nil_r.
  - change (path_prefixes_from seen (String a (s +:+ String slash rest))
            = (seen +:+ String a s)
              :: path_prefixes_from (seen +:+ String a (s +:+ String slash "")) rest).
    simpl in Hs. simpl. case_decide; [done|]. rewrite IH by done.
    by rewrite !string_app_assoc.
Qed.

Lemma path_prefixes_root : path_prefixes "braintrust_data" = ["braintrust_data"].
Proof. reflexivity. Qed.

Lemma path_prefixes_under_root rest :
  path_prefixes ("braintrust_data/" +:+ rest)
  = "braintrust_data" :: path_prefixes_from "braintrust_data/" rest.
Proof. reflexivity. Qed.

(** For a plain directory name the second [os.makedirs] has the root and
    the directory itself to make. *)
Lemma path_prefixes_directory directory :
  has_char slash directory = false →
  path_prefixes ("braintrust_data/" +:+ directory)
  = ["braintrust_data"; "braintrust_data/" +:+ directory].
Proof.
  intros Hplain. by rewrite path_prefixes_under_root, path_prefixes_from_plain.
Qed.

(** The object's file lies in the directory the second [os.makedirs] makes,
    when neither name holds a [/]. *)
Lemma path_parent_csv_path directory object_id :
  has_char slash directory = false → has_char slash object_id = false →
  path_parent (csv_path directory object_id) = Some ("braintrust_data/" +:+ directory).
Proof.
  intros Hd Hi. unfold path_parent, csv_path.
  rewrite path_prefixes_under_root.
  change (directory +:+ "/" +:+ object_id +:+ ".csv")
    with (directory +:+ String slash (object_id +:+ ".csv")).
  rewrite path_prefixes_from_slash by done.
  rewrite path_prefixes_from_plain by (by rewrite has_char_app, Hi).
  reflexivity.
Qed.

Lemma has_nul_csv_path directory object_id :
  has_char nul (csv_path directory object_id)
  = has_char nul directory || has_char nul object_id.
Proof.
  unfold csv_path. rewrite !has_char_app.
  change (has_char nul "braintrust_data/") with false.
  change (has_char nul "/") with false.
  change (has_char nul ".csv") with false.
  by rewrite orb_false_r.
Qed.

Lemma csv_path_not_directory directory object_id :
  csv_path directory object_id ≠ "braintrust_data" ∧
  csv_path directory object_id ≠ "braintrust_data/" +:+ directory.
Proof.
  unfold csv_path. split; [by cbn|]. intros Heq.
  rewrite <-(string_app_nil_r directory) in Heq at 2.
  apply (inj (String.app "braintrust_data/")) in Heq.
  apply (inj (String.app directory)) in Heq. by cbn in Heq.
Qed.

(** ** File system *)

Lemma can_makedirs_dec path w : can_makedirs path w ∨ ¬ can_makedirs path w.
Proof.
  unfold can_makedirs.
  destruct (decide (Forall (creatable w) (path_prefixes path))); auto.
Qed.

Lemma mkdir_ok path w :
  creatable w path →
  mkdir path w = Some (Return tt, set_dirs ({[path]} ∪ dirs w) w).
Proof.
  intros Hcan. unfold mkdir. destruct (decide (path ∈ dirs w)) as [Hin|Hout].
  - assert ({[path]} ∪ dirs w = dirs w) as ->
      by (by apply subseteq_union_1_L, singleton_subseteq_l).
    by destruct w.
  - destruct Hcan as [?|[? ?]]; [done|]. by rewrite !decide_False.
Qed.

Lemma mkdir_fail path w :
  ¬ creatable w path →
  ∃ detail, mkdir path w = Some (Raise (IOError detail), w).
Proof.
  unfold creatable, mkdir. intros Hcannot.
  repeat case_decide; eauto; tauto.
Qed.

Lemma creatable_set_dirs path d w :
  creatable w path → dirs w ⊆ d → creatable (set_dirs d w) path.
Proof. intros [?|?] Hsub; [left|right]; simpl; set_solver. Qed.

(** Making directories that could be made anyway does not make another
    directory creatable. *)
Lemma creatable_after_mkdirs paths path w :
  Forall (creatable w) paths →
  creatable (set_dirs (list_to_set paths ∪ dirs w) w) path →
  creatable w path.
Proof.
  intros Hall [Hin|Hfree]; [|by right]. simpl in Hin.
  apply elem_of_union in Hin as [Hin|Hin]; [|by left].
  apply elem_of_list_to_set in Hin. rewrite Forall_forall in Hall. by apply Hall.
Qed.

Lemma can_makedirs_set_dirs path d w :
  can_makedirs path w → dirs w ⊆ d → can_makedirs path (set_dirs d w).
Proof.
  unfold can_makedirs. intros Hcan Hsub.
  eapply Forall_impl; [exact Hcan|]. intros p Hp. by apply creatable_set_dirs.
Qed.

Lemma mkdirs_ok paths : ∀ w,
  Forall (creatable w) paths →
  for_each paths mkdir w
  = Some (Return tt, set_dirs (list_to_set paths ∪ dirs w) w).
Proof.
  induction paths as [|p paths IH]; intros w Hall; simpl.
  - unfold ret. rewrite union_empty_l_L. by destruct w.
  - apply Forall_cons in Hall as [Hp Hall].
    erewrite bind_return by (by apply mkdir_ok).
    rewrite IH.
    + simpl. do 2 f_equal. unfold set_dirs. simpl. f_equal. set_solver.
    + eapply Forall_impl; [exact Hall|]. intros q Hq.
      apply creatable_set_dirs; [done|]. apply union_subseteq_r.
Qed.

Lemma mkdirs_fail paths : ∀ w,
  ¬ Forall (creatable w) paths →
  ∃ detail d, for_each paths mkdir w = Some (Raise (IOError detail), set_dirs d w).
Proof.
  induction paths as [|p paths IH]; intros w Hnot; simpl.
  - by destruct Hnot.
  - destruct (decide (creatable w p)) as [Hp|Hp].
    + destruct (IH (set_dirs ({[p]} ∪ dirs w) w)) as (detail & d & Hrun).
      { intros Hall. apply Hnot. constructor; [done|].
        eapply Forall_impl; [exact Hall|]. intros q [Hin|Hfree]; [|by right].
        simpl in Hin. apply elem_of_union in Hin as [Hin|Hin]; [|by left].
        by apply elem_of_singleton in Hin as ->. }
      exists detail, d. by erewrite bind_return by (by apply mkdir_ok).
    + destruct (mkdir_fail _ _ Hp) as [detail Hfail].
      exists detail, (dirs w). erewrite bind_raise by exact Hfail. by destruct w.
Qed.

Lemma makedirs_ok path w :
  can_makedirs path w →
  makedirs path w
  = Some (Return tt, set_dirs (list_to_set (path_prefixes path) ∪ dirs w) w).
Proof. apply mkdirs_ok. Qed.

Lemma makedirs_fail path w :
  ¬ can_makedirs path w →
  ∃ detail d, makedirs path w = Some (Raise (IOError detail), set_dirs d w).
Proof. apply mkdirs_fail. Qed.

(** For a plain directory name, the directories after the two
    [os.makedirs] calls are the old ones and the two asked for. *)
Lemma output_dirs_plain directory w :
  has_char slash directory = false →
  output_dirs directory w
  = {["braintrust_data/" +:+ directory]} ∪ ({["braintrust_data"]} ∪ dirs w).
Proof.
  intros Hplain. unfold output_dirs.
  rewrite path_prefixes_directory, path_prefixes_root by done. set_solver.
Qed.

Lemma creatable_insert_file path filename old w :
  creatable w path → path ≠ filename →
  creatable (set_files (<[filename := old]> (files w)) w) path.
Proof.
  intros [?|[? ?]] Hne; [by left|right]. simpl. split; [|done].
  rewrite dom_insert_L, not_elem_of_union, not_elem_of_singleton. done.
Qed.

(** Whatever the object's file holds does not stand in the way of
    writing it. *)
Lemma fs_ready_overwritten directory object_id old w :
  fs_ready directory object_id w →
  fs_ready directory object_id
    (set_files (<[csv_path directory object_id := old]> (files w)) w).
Proof.
  intros (Hdir & Hid & H1 & H2 & Hf1 & Hf2).
  pose proof (csv_path_not_directory directory object_id) as [Hp1 Hp2].
  assert (has_char slash directory = false) as Hplain by apply Hdir.
  split; [done|]. split; [done|]. unfold can_makedirs in *.
  rewrite path_prefixes_directory in * by done.
  rewrite path_prefixes_root in *.
  apply Forall_cons in H2 as [Hroot H2]. apply Forall_cons in H2 as [Hsub _].
  split; [|split; [|done]].
  - constructor; [|done]. by apply creatable_insert_file.
  - constructor; [by apply creatable_insert_file|].
    constructor; [|done]. by apply creatable_insert_file.
Qed.

Lemma open_for_writing_cases filename w :
  open_for_writing filename w
    = Some (Return tt, set_files (<[filename := []]> (files w)) w) ∨
  (∃ detail, open_for_writing filename w = Some (Raise (IOError detail), w)) ∨
  open_for_writing filename w = Some (Raise (ValueError "embedded null byte"), w).
Proof.
  unfold open_for_writing.
  repeat first [case_decide | case_match]; eauto.
Qed.

Lemma open_for_writing_ok filename parent w :
  filename ∉ dirs w → filename ∉ denied w → has_char nul filename = false →
  path_parent filename = Some parent → parent ∈ dirs w →
  open_for_writing filename w
  = Some (Return tt, set_files (<[filename := []]> (files w)) w).
Proof.
  intros ?? Hnul Hparent ?. unfold open_for_writing.
  by rewrite !decide_False, Hnul, Hparent, decide_True by done.
Qed.

Lemma open_for_writing_fail filename w :
  filename ∈ dirs w ∨ filename ∈ denied w →
  ∃ detail, open_for_writing filename w = Some (Raise (IOError detail), w).
Proof. unfold open_for_writing. intros [?|?]; repeat case_decide; eauto; tauto. Qed.

(** ** Encoding *)

Lemma first_unencodable_none w row :
  Forall (λ v, ∀ s, cell_text v = Some s → s = "" ∨ s ∉ unencodable w) row →
  first_unencodable w row = None.
Proof.
  unfold first_unencodable. induction 1 as [|v row Hv _ IH]; [done|].
  destruct v; simpl; try exact IH.
  rewrite filter_cons_False; [exact IH|].
  intros [? ?]. by destruct (Hv _ eq_refl).
Qed.

Lemma writerow_ok filename row w :
  first_unencodable w row = None →
  writerow filename row w
  = Some (Return tt,
          set_files (<[filename := default [] (files w !! filename) ++ [row]]> (files w)) w).
Proof. unfold writerow. by intros ->. Qed.

Lemma writerow_cases filename row w :
  writerow filename row w
    = Some (Return tt,
            set_files (<[filename := default [] (files w !! filename) ++ [row]]> (files w)) w) ∨
  ∃ text, writerow filename row w = Some (Raise (UnicodeEncodeError text), w).
Proof. unfold writerow. destruct (first_unencodable w row); eauto. Qed.

Lemma live_references (h : list event) (events : list loc) :
  Forall (λ l, (l < length h)%nat) events →
  ∃ recs, Forall2 (λ l r, h !! l = Some r) events recs.
Proof.
  induction 1 as [|l events Hl _ [recs IH]]; [by exists []|].
  apply lookup_lt_is_Some in Hl as [r Hr]. exists (r :: recs). by constructor.
Qed.

Ltac log_extended :=
  simpl; first [ by exists []; rewrite app_nil_r | by eexists ].

(** ** [sorted] *)

Lemma sorted_Sorted (s : gset string) : Sorted String.le (sorted s).
Proof. apply (Sorted_merge_sort String.le). Qed.

Lemma sorted_NoDup (s : gset string) : NoDup (sorted s).
Proof. unfold sorted. rewrite merge_sort_Permutation. apply NoDup_elements. Qed.

Lemma elem_of_sorted (s : gset string) k : k ∈ sorted s ↔ k ∈ s.
Proof. unfold sorted. by rewrite merge_sort_Permutation, elem_of_elements. Qed.

(** ** [normalize_event] *)

Lemma flatten_loop_eq l items : ∀ w ev,
  heap w !! l = Some ev →
  for_each items (λ '(key, v),
    if is_nested v then dict_setitem l key (VStr (json_dumps v)) else ret tt) w
  = Some (Return tt, put l (foldl flatten_item ev items) w).
Proof.
  induction items as [|[key v] items IH]; intros w ev H; simpl.
  - unfold ret. by rewrite put_same.
  - unfold flatten_item at 2. simpl. destruct (is_nested v).
    + erewrite bind_return by (by apply dict_setitem_eq).
      erewrite IH by (by eapply heap_put). by rewrite put_put.
    + erewrite bind_return by reflexivity. by apply IH.
Qed.

Lemma lookup_flatten_items items : ∀ (ev : event) key,
  NoDup items.*1 →
  foldl flatten_item ev items !! key =
    match (list_to_map items : event) !! key with
    | Some v => if is_nested v then Some (VStr (json_dumps v)) else ev !! key
    | None => ev !! key
    end.
Proof.
  induction items as [|[k v] items IH]; intros ev key Hnd; simpl.
  - by rewrite lookup_empty.
  - apply NoDup_cons in Hnd as [Hk Hnd]. rewrite IH by done.
    destruct (decide (k = key)) as [->|Hne].
    + rewrite lookup_insert_eq.
      rewrite (not_elem_of_list_to_map_1 _ key) by done.
      unfold flatten_item. simpl. destruct (is_nested v); [|done].
      by rewrite lookup_insert_eq.
    + rewrite lookup_insert_ne by done.
      unfold flatten_item. simpl. destruct (is_nested v); [|done].
      by rewrite lookup_insert_ne.
Qed.

Lemma flatten_items_fmap (ev : event) :
  foldl flatten_item ev (map_to_list ev) = flatten <$> ev.
Proof.
  apply map_eq. intros key.
  rewrite lookup_flatten_items by apply NoDup_fst_map_to_list.
  rewrite list_to_map_to_list, lookup_fmap. unfold flatten.
  destruct (ev !! key) as [v|] eqn:E; simpl; [|done].
  by destruct (is_nested v).
Qed.

(** [normalize_event] always returns: it hands back the reference it was
    given, and the mapping behind it now holds [normalized ev]. *)
Lemma normalize_event_eq l w ev :
  heap w !! l = Some ev →
  normalize_event l w = Some (Return l, put l (normalized ev) w).
Proof.
  intros H. unfold normalize_event, normalized, promote.
  erewrite bind_return by (by apply dict_get_eq).
  destruct (ev !! "input") as [input|] eqn:E; simpl;
    [destruct input; simpl|].
  all: try (erewrite bind_return by reflexivity;
            erewrite bind_return by (by apply dict_items_eq);
            erewrite bind_return by (by apply flatten_loop_eq);
            by rewrite flatten_items_fmap).
  rewrite !bind_assoc.
  erewrite bind_return by (by eapply dict_pop_eq).
  do 4 (rewrite !bind_assoc; erewrite bind_return by reflexivity;
        rewrite ?bind_assoc;
        erewrite bind_return by (eapply dict_setitem_eq; by eapply heap_put);
        rewrite put_put).
  erewrite bind_return by (eapply dict_items_eq; by eapply heap_put).
  erewrite bind_return by (eapply flatten_loop_eq; by eapply heap_put).
  by rewrite put_put, flatten_items_fmap.
Qed.

Lemma flatten_scalar v : is_scalar (flatten v) = true.
Proof. unfold flatten. by destruct v. Qed.

Lemma flatten_id v : is_scalar v = true → flatten v = v.
Proof. unfold flatten. by destruct v. Qed.

Lemma fields_get_missing (d : list (string * value)) key :
  key ∉ d.*1 → fields_get d key = VNone.
Proof.
  induction d as [|[k v] d IH]; simpl; [done|].
  rewrite not_elem_of_cons. intros [Hne Hd].
  destruct (decide (k = key)); [congruence|auto].
Qed.

Lemma normalized_scalar_id (ev : event) :
  (∀ key v, ev !! key = Some v → is_scalar v = true) → normalized ev = ev.
Proof.
  intros Hsc. unfold normalized, promote.
  destruct (ev !! "input") as [input|] eqn:E.
  - apply Hsc in E as Hin. destruct input; try discriminate Hin.
    all: apply map_eq; intros key; rewrite lookup_fmap;
      destruct (ev !! key) as [v|] eqn:Ek; simpl; [|done];
      by rewrite flatten_id by eauto.
  - apply map_eq; intros key; rewrite lookup_fmap;
      destruct (ev !! key) as [v|] eqn:Ek; simpl; [|done];
      by rewrite flatten_id by eauto.
Qed.

Lemma normalized_idem (ev : event) : normalized (normalized ev) = normalized ev.
Proof.
  apply normalized_scalar_id. intros key v.
  unfold normalized. rewrite lookup_fmap.
  destruct (promote ev !! key); simpl; [|done].
  intros [= <-]. apply flatten_scalar.
Qed.

(** ** The steps of [write_to_csv] *)

(** The list comprehension normalises every listed mapping in place; a
    mapping listed twice is normalised twice, which changes nothing more. *)
Lemma map_m_normalize events : ∀ w,
  Forall (λ l, is_Some (heap w !! l)) events →
  ∃ h', map_m normalize_event events w = Some (Return events, set_heap h' w) ∧
        ∀ l, h' !! l = if decide (l ∈ events)
                       then normalized <$> heap w !! l else heap w !! l.
Proof.
  induction events as [|a events IH]; intros w Hall.
  - exists (heap w). split; [by destruct w|]. intros l.
    by rewrite decide_False by apply not_elem_of_nil.
  - apply Forall_cons in Hall as [[ev Ha] Hall]. simpl.
    erewrite bind_return by (by apply normalize_event_eq).
    destruct (IH (put a (normalized ev) w)) as (h' & Hrun & Hlk).
    { eapply Forall_impl; [exact Hall|]. intros l Hl. unfold put. simpl.
      apply lookup_lt_is_Some. rewrite length_insert.
      by apply lookup_lt_is_Some. }
    erewrite bind_return by exact Hrun.
    exists h'. split; [done|]. intros l. rewrite Hlk.
    destruct (decide (l = a)) as [->|Hne].
    + rewrite (heap_put _ _ _ _ Ha), Ha, (decide_True _ _ (list_elem_of_here _ _)).
      simpl. rewrite normalized_idem. by destruct (decide (a ∈ events)).
    + rewrite heap_put_ne by done.
      destruct (decide (l ∈ events)) as [Hin|Hout].
      * by rewrite decide_True by (by apply list_elem_of_further).
      * rewrite decide_False; [done|]. rewrite elem_of_cons. tauto.
Qed.

Lemma collect_fieldnames events : ∀ (recs : list event) (acc : gset string) w,
  Forall2 (λ l r, heap w !! l = Some r) events recs →
  fold_m (λ fieldnames e, ev ← deref e ; ret (fieldnames ∪ dom ev)) acc events w
  = Some (Return (foldl (λ acc r, acc ∪ dom r) acc recs), w).
Proof.
  induction events as [|a events IH]; intros recs acc w Hrecs.
  - by apply Forall2_nil_inv_l in Hrecs as ->.
  - apply Forall2_cons_inv_l in Hrecs as (r & recs' & Ha & Hrecs & ->). simpl.
    erewrite bind_return; [by apply IH|].
    by erewrite bind_return by (by apply deref_eq).
Qed.

Lemma elem_of_fieldnames (recs : list event) : ∀ (acc : gset string) k,
  k ∈ foldl (λ acc r, acc ∪ dom r) acc recs
  ↔ k ∈ acc ∨ ∃ r, r ∈ recs ∧ is_Some (r !! k).
Proof.
  induction recs as [|r recs IH]; intros acc k; simpl.
  - split; [auto|]. intros [?|(r & Hr & _)]; [done|]. by apply elem_of_nil in Hr.
  - rewrite IH, elem_of_union, elem_of_dom. split.
    + intros [[?|?]|(r' & ? & ?)]; [by left|right..].
      * exists r. split; [apply list_elem_of_here|done].
      * exists r'. split; [by apply list_elem_of_further|done].
    + intros [?|(r' & [->|Hin]%elem_of_cons & ?)]; [by left; left|by left; right|].
      right. by exists r'.
Qed.

Lemma dict_to_list_ok (fieldnames : list string) (rowdict : event) w :
  (∀ k, is_Some (rowdict !! k) → k ∈ fieldnames) →
  dict_to_list fieldnames rowdict w = Some (Return (row_of fieldnames rowdict), w).
Proof.
  intros Hsub. unfold dict_to_list.
  replace (forallb _ _) with true; [done|].
  symmetry. apply forallb_forall. intros k Hk.
  apply bool_decide_eq_true, Hsub, elem_of_dom, elem_of_elements.
  by apply list_elem_of_In.
Qed.

Lemma encodable_header w (recs : list event) :
  Forall (encodable_record w) recs →
  first_unencodable w (VStr <$> sorted (foldl (λ acc r, acc ∪ dom r) ∅ recs)) = None.
Proof.
  intros Henc. apply first_unencodable_none, Forall_fmap, Forall_forall.
  intros k Hk s [= <-].
  apply elem_of_sorted, elem_of_fieldnames in Hk as [Hk|(r & Hr & [v Hv])].
  { by apply elem_of_empty in Hk. }
  rewrite Forall_forall in Henc. by destruct (Henc r Hr k v Hv).
Qed.

Lemma encodable_row w (fieldnames : list string) (r : event) :
  encodable_record w r → first_unencodable w (row_of fieldnames r) = None.
Proof.
  intros Henc. apply first_unencodable_none, Forall_fmap, Forall_forall.
  intros k _ s. simpl. destruct (r !! k) as [v|] eqn:Hv; simpl.
  - intros Hs. by destruct (Henc k v Hv) as [_ Hcell]; apply Hcell.
  - intros [= <-]. by left.
Qed.

Lemma writerows_eq filename fieldnames events : ∀ (recs : list event) w rows,
  Forall2 (λ l r, heap w !! l = Some r) events recs →
  Forall (λ r : event, ∀ k, is_Some (r !! k) → k ∈ fieldnames) recs →
  Forall (encodable_record w) recs →
  files w !! filename = Some rows →
  writerows filename fieldnames events w
  = Some (Return tt,
          set_files (<[filename := rows ++ (row_of fieldnames <$> recs)]> (files w)) w).
Proof.
  unfold writerows.
  induction events as [|a events IH]; intros recs w rows Hrecs Hsub Henc Hfile.
  - apply Forall2_nil_inv_l in Hrecs as ->. simpl. unfold ret.
    rewrite app_nil_r, insert_id by done. by destruct w.
  - apply Forall2_cons_inv_l in Hrecs as (r & recs' & Ha & Hrecs & ->).
    apply Forall_cons in Hsub as [Hr Hsub].
    apply Forall_cons in Henc as [Hr' Henc]. simpl.
    erewrite bind_return.
    2:{ erewrite bind_return by (by apply deref_eq).
        erewrite bind_return by (by apply dict_to_list_ok).
        rewrite writerow_ok by (by apply encodable_row). by rewrite Hfile. }
    erewrite IH; [|exact Hrecs|exact Hsub|exact Henc|by apply lookup_insert_eq].
    simpl. by rewrite insert_insert_eq, <-app_assoc.
Qed.

(** The rows are written one by one until a text cannot be encoded; the
    key check of [DictWriter] never fails for a header that holds every
    key. *)
Lemma writerows_cases filename fieldnames events : ∀ (recs : list event) w rows,
  Forall2 (λ l r, heap w !! l = Some r) events recs →
  Forall (λ r : event, ∀ k, is_Some (r !! k) → k ∈ fieldnames) recs →
  files w !! filename = Some rows →
  ∃ r rows',
    writerows filename fieldnames events w
    = Some (r, set_files (<[filename := rows']> (files w)) w) ∧
    ((r = Return tt ∧ rows' = rows ++ (row_of fieldnames <$> recs)) ∨
     ∃ text, r = Raise (UnicodeEncodeError text)).
Proof.
  unfold writerows.
  induction events as [|a events IH]; intros recs w rows Hrecs Hsub Hfile.
  - apply Forall2_nil_inv_l in Hrecs as ->.
    exists (Return tt), rows. split; [|left; by rewrite app_nil_r]. simpl. unfold ret.
    rewrite insert_id by done. by destruct w.
  - apply Forall2_cons_inv_l in Hrecs as (r & recs' & Ha & Hrecs & ->).
    apply Forall_cons in Hsub as [Hr Hsub]. simpl.
    destruct (writerow_cases filename (row_of fieldnames r) w) as [Hrow|[text Hrow]].
    + edestruct (IH recs'
        (set_files (<[filename := default [] (files w !! filename)
                                   ++ [row_of fieldnames r]]> (files w)) w))
        as (r' & rows' & Hrun & Hkind);
        [exact Hrecs|exact Hsub|by apply lookup_insert_eq|].
      exists r', rows'. split.
      2:{ destruct Hkind as [[-> ->]|?]; [left|by right].
          rewrite Hfile. simpl. by rewrite <-app_assoc. }
      erewrite bind_return.
      2:{ erewrite bind_return by (by apply deref_eq).
          erewrite bind_return by (by apply dict_to_list_ok). exact Hrow. }
      rewrite Hrun. simpl. by rewrite insert_insert_eq.
    + exists (Raise (UnicodeEncodeError text)), rows. split; [|right; by eexists].
      erewrite bind_raise.
      2:{ erewrite bind_return by (by apply deref_eq).
          erewrite bind_return by (by apply dict_to_list_ok). exact Hrow. }
      rewrite insert_id by done. by destruct w.
Qed.

(** The two [os.makedirs] calls under the first part of the [try]: they
    either both succeed or the call ends in [UnboundLocalError]; in both
    cases only the set of directories may have changed. *)
Lemma write_to_csv_dirs_cases directory object_id w :
  ∃ r d,
    try_except
      (makedirs "braintrust_data" ;; makedirs ("braintrust_data/" +:+ directory))
      (λ e, if is_io_error e then raise (UnboundLocalError "filename")
            else logger (ErrUnexpectedCsv object_id e) ;; raise e) w
    = Some (r, set_dirs d w) ∧
    ((r = Return tt ∧ d = output_dirs directory w ∧
      can_makedirs "braintrust_data" w ∧
      can_makedirs ("braintrust_data/" +:+ directory) w) ∨
     (r = Raise (UnboundLocalError "filename") ∧
      (¬ can_makedirs "braintrust_data" w ∨
       ¬ can_makedirs ("braintrust_data/" +:+ directory) w))).
Proof.
  destruct (can_makedirs_dec "braintrust_data" w) as [H1|H1].
  - destruct (can_makedirs_dec ("braintrust_data/" +:+ directory) w) as [H2|H2].
    + eexists _, _. split; [|left; by eauto].
      apply try_return.
      erewrite bind_return by (by apply makedirs_ok).
      rewrite makedirs_ok; [done|].
      apply can_makedirs_set_dirs; [done|]. apply union_subseteq_r.
    + destruct (makedirs_fail ("braintrust_data/" +:+ directory)
                  (set_dirs (list_to_set (path_prefixes "braintrust_data") ∪ dirs w) w))
        as (detail & d & Hfail).
      { intros Hcan. apply H2. unfold can_makedirs in *.
        eapply Forall_impl; [exact Hcan|]. intros p.
        by apply creatable_after_mkdirs. }
      eexists _, d. split; [|right; by auto].
      erewrite try_raise
        by (erewrite bind_return by (by apply makedirs_ok); exact Hfail).
      reflexivity.
  - destruct (makedirs_fail _ _ H1) as (detail & d & Hfail).
    eexists _, d. split; [|right; by auto].
    by erewrite try_raise by (by erewrite bind_raise by exact Hfail).
Qed.

Lemma write_to_csv_makedirs directory object_id w :
  can_makedirs "braintrust_data" w →
  can_makedirs ("braintrust_data/" +:+ directory) w →
  try_except
    (makedirs "braintrust_data" ;; makedirs ("braintrust_data/" +:+ directory))
    (λ e, if is_io_error e then raise (UnboundLocalError "filename")
          else logger (ErrUnexpectedCsv object_id e) ;; raise e) w
  = Some (Return tt, set_dirs (output_dirs directory w) w).
Proof.
  intros H1 H2.
  destruct (write_to_csv_dirs_cases directory object_id w)
    as (r & d & Hrun & [(-> & -> & _)|(_ & [?|?])]); done.
Qed.

Lemma normalized_heap_length (h h' : list event) (events : list loc) :
  (∀ l, h' !! l = if decide (l ∈ events) then normalized <$> h !! l else h !! l) →
  length h' = length h.
Proof.
  intros Hlk.
  assert (∀ l, is_Some (h' !! l) ↔ is_Some (h !! l)) as Hsome.
  { intros l. rewrite Hlk. case_decide; [|done]. by rewrite fmap_is_Some. }
  apply Nat.le_antisymm; apply Nat.nlt_ge; intros Hlt.
  - apply lookup_lt_is_Some, Hsome, lookup_lt_is_Some in Hlt. lia.
  - apply lookup_lt_is_Some, Hsome, lookup_lt_is_Some in Hlt. lia.
Qed.

(** The ways [write_to_csv] can end, what it logs in each, and what it
    leaves alone. *)
Lemma write_to_csv_cases events directory object_id w :
  Forall (λ l, (l < length (heap w))%nat) events →
  ∃ r w',
    write_to_csv events directory object_id w = Some (r, w') ∧
    ((r = Return tt ∧
      log w' = log w ++ match events with [] => [WarnNoEvents object_id] | _ => [] end) ∨
     (r = Raise (UnboundLocalError "filename") ∧
      log w' = log w ∧ files w' = files w ∧ heap w' = heap w) ∨
     (∃ detail, r = Raise (IOError detail) ∧
        log w' = log w ++ [ErrWriteCsv (csv_path directory object_id) (IOError detail)] ∧
        files w' = files w) ∨
     (∃ e, (e = ValueError "embedded null byte" ∨ ∃ text, e = UnicodeEncodeError text) ∧
        r = Raise e ∧ log w' = log w ++ [ErrUnexpectedCsv object_id e])) ∧
    net w' = net w ∧ sent w' = sent w ∧ denied w' = denied w ∧
    length (heap w') = length (heap w) ∧
    ∀ p, p ≠ csv_path directory object_id → files w' !! p = files w !! p.
Proof.
  intros Hlive. unfold write_to_csv.
  destruct (write_to_csv_dirs_cases directory object_id w)
    as (r1 & d & Hdirs & [(-> & _)|(-> & _)]).
  2:{ erewrite bind_raise by exact Hdirs. eexists _, _. split; [done|].
      split; [right; left; done|]. done. }
  erewrite bind_return by exact Hdirs.
  destruct events as [|e events].
  { eexists _, _. split; [done|]. split; [by left|]. done. }
  cbv iota. revert Hlive. generalize (e :: events).
  clear e events. intros events Hlive.
  destruct (map_m_normalize events (set_dirs d w)) as (h' & Hrun & Hlk).
  { eapply Forall_impl; [exact Hlive|]. intros l. apply lookup_lt_is_Some. }
  pose proof (normalized_heap_length _ _ _ Hlk) as Hlen. simpl in Hlen.
  destruct (live_references h' events) as [recs Hrecs].
  { eapply Forall_impl; [exact Hlive|]. intros l Hl. simpl in Hl. lia. }
  assert (Forall (λ r : event, ∀ k, is_Some (r !! k) →
            k ∈ sorted (foldl (λ acc r, acc ∪ dom r) ∅ recs)) recs) as Hkeys.
  { apply Forall_forall. intros r Hr k Hk.
    apply elem_of_sorted, elem_of_fieldnames. right. by exists r. }
  destruct (open_for_writing_cases (csv_path directory object_id)
              (set_heap h' (set_dirs d w))) as [Hopen|[[detail Hopen]|Hopen]].
  - destruct (writerow_cases (csv_path directory object_id)
                (VStr <$> sorted (foldl (λ acc r, acc ∪ dom r) ∅ recs))
                (set_files (<[csv_path directory object_id := []]> (files w))
                   (set_heap h' (set_dirs d w)))) as [Hhead|[text Hhead]].
    + simpl in Hhead. rewrite lookup_insert_eq in Hhead. simpl in Hhead.
      match type of Hhead with
      | _ = Some (_, ?w2) =>
          destruct (writerows_cases (csv_path directory object_id)
                      (sorted (foldl (λ acc r, acc ∪ dom r) ∅ recs)) events recs w2
                      [VStr <$> sorted (foldl (λ acc r, acc ∪ dom r) ∅ recs)])
            as (r & rows' & Hrows & Hkind);
            [exact Hrecs|exact Hkeys|by apply lookup_insert_eq|]
      end.
      destruct Hkind as [[-> _]|[text ->]].
      * eexists _, _. split.
        { apply try_return.
          erewrite bind_return by exact Hrun.
          erewrite bind_return by (by apply collect_fieldnames).
          erewrite bind_return by exact Hopen.
          erewrite bind_return by exact Hhead.
          exact Hrows. }
        simpl. split; [left; by rewrite app_nil_r|]. do 4 (split; [done|]).
        intros p Hp. by rewrite !lookup_insert_ne.
      * eexists _, _. split.
        { erewrite try_raise; [|
            erewrite bind_return by exact Hrun;
            erewrite bind_return by (by apply collect_fieldnames);
            erewrite bind_return by exact Hopen;
            erewrite bind_return by exact Hhead;
            exact Hrows].
          reflexivity. }
        simpl. split; [do 3 right; eexists; by eauto|]. do 4 (split; [done|]).
        intros p Hp. by rewrite !lookup_insert_ne.
    + eexists _, _. split.
      { erewrite try_raise; [|
          erewrite bind_return by exact Hrun;
          erewrite bind_return by (by apply collect_fieldnames);
          erewrite bind_return by exact Hopen;
          by erewrite bind_raise by exact Hhead].
        reflexivity. }
      simpl. split; [do 3 right; eexists; by eauto|]. do 4 (split; [done|]).
      intros p Hp. by rewrite !lookup_insert_ne.
  - eexists _, _. split.
    + erewrite try_raise; [|
        erewrite bind_return by exact Hrun;
        erewrite bind_return by (by apply collect_fieldnames);
        by erewrite bind_raise by exact Hopen].
      reflexivity.
    + simpl. split; [right; right; left; by eauto|]. done.
  - eexists _, _. split.
    + erewrite try_raise; [|
        erewrite bind_return by exact Hrun;
        erewrite bind_return by (by apply collect_fieldnames);
        by erewrite bind_raise by exact Hopen].
      reflexivity.
    + simpl. split; [do 3 right; eexists; by eauto|]. done.
Qed.

(** [write_to_csv] ends, normally or not, for any list of live
    references, and only adds to the log. *)
Lemma write_to_csv_total events directory object_id w :
  Forall (λ l, (l < length (heap w))%nat) events →
  ∃ r w',
    write_to_csv events directory object_id w = Some (r, w') ∧
    ∃ entries, log w' = log w ++ entries.
Proof.
  intros Hlive.
  destruct (write_to_csv_cases events directory object_id w Hlive)
    as (r & w' & Hrun & Hkind & _).
  exists r, w'. split; [exact Hrun|].
  destruct Hkind as [[_ Hlog]|[(_ & Hlog & _)|[(? & _ & Hlog & _)|(? & _ & _ & Hlog)]]].
  - by eexists.
  - exists []. by rewrite app_nil_r.
  - by eexists.
  - by eexists.
Qed.

(** The records of an object end up in its file under one header. *)
Lemma write_to_csv_eq events (evs : list event) directory object_id w :
  events ≠ [] →
  Forall2 (λ l ev, heap w !! l = Some ev) events evs →
  fs_ready directory object_id w →
  Forall (encodable_record w) (normalized <$> evs) →
  ∃ h' header,
    write_to_csv events directory object_id w
    = Some (Return tt,
        set_files (<[csv_path directory object_id :=
                       (VStr <$> header) :: (row_of header <$> (normalized <$> evs))]>
                     (files w))
          (set_dirs ({["braintrust_data/" +:+ directory]} ∪ ({["braintrust_data"]} ∪ dirs w))
             (set_heap h' w))) ∧
    header = sorted (foldl (λ acc r, acc ∪ dom r) ∅ (normalized <$> evs)) ∧
    Forall2 (λ l ev, h' !! l = Some (normalized ev)) events evs ∧
    (∀ l, l ∉ events → h' !! l = heap w !! l).
Proof.
  intros Hne Hevs ((_ & _ & _ & Hslash & Hnul) & (Hslash' & Hnul') & Hd1 & Hd2 & Hf1 & Hf2) Henc.
  destruct (map_m_normalize events (set_dirs (output_dirs directory w) w))
    as (h' & Hrun & Hlk).
  { eapply Forall2_Forall_l; [exact Hevs|]. apply Forall_true. by eauto. }
  simpl in Hlk.
  assert (Forall2 (λ l r, h' !! l = Some r) events (normalized <$> evs)) as Hrecs.
  { apply Forall2_fmap_r. clear Hrun Hne Henc.
    assert (∀ l, l ∈ events → h' !! l = normalized <$> heap w !! l) as Hin.
    { intros l Hl. by rewrite Hlk, decide_True. }
    clear Hlk. induction Hevs as [|l ev events evs Hl Hevs IH]; constructor.
    - rewrite Hin by apply list_elem_of_here. by rewrite Hl.
    - apply IH. intros l' Hl'. apply Hin. by apply list_elem_of_further. }
  exists h', (sorted (foldl (λ acc r, acc ∪ dom r) ∅ (normalized <$> evs))).
  split; [|split; [done|split]].
  - unfold write_to_csv.
    erewrite bind_return by (by apply write_to_csv_makedirs).
    destruct events as [|e events]; [done|].
    apply try_return.
    erewrite bind_return by exact Hrun.
    erewrite bind_return by (by apply collect_fieldnames).
    pose proof (csv_path_not_directory directory object_id) as [Hp1 Hp2].
    rewrite output_dirs_plain by done.
    erewrite bind_return.
    2:{ apply (open_for_writing_ok _ ("braintrust_data/" +:+ directory)).
        - simpl. rewrite !not_elem_of_union, !not_elem_of_singleton. done.
        - done.
        - by rewrite has_nul_csv_path, Hnul, Hnul'.
        - by apply path_parent_csv_path.
        - simpl. apply elem_of_union_l. by apply elem_of_singleton. }
    erewrite bind_return.
    2:{ unfold writeheader. rewrite writerow_ok by (by apply encodable_header).
        simpl. rewrite lookup_insert_eq. done. }
    erewrite writerows_eq; [ |exact Hrecs| |exact Henc|by apply lookup_insert_eq].
    + simpl. by rewrite !insert_insert_eq.
    + apply Forall_forall. intros r Hr k Hk.
      apply elem_of_sorted, elem_of_fieldnames. right. by exists r.
  - by apply Forall2_fmap_r in Hrecs.
  - intros l Hl. by rewrite Hlk, decide_False.
Qed.

(** The events of a call are normalised in place, whatever else the
    store holds. *)
Lemma map_m_normalize_records events (evs : list event) w :
  Forall2 (λ l ev, heap w !! l = Some ev) events evs →
  ∃ h', map_m normalize_event events w = Some (Return events, set_heap h' w) ∧
        Forall2 (λ l r, h' !! l = Some r) events (normalized <$> evs) ∧
        (∀ l, l ∉ events → h' !! l = heap w !! l).
Proof.
  intros Hevs.
  destruct (map_m_normalize events w) as (h' & Hrun & Hlk).
  { eapply Forall2_Forall_l; [exact Hevs|]. apply Forall_true. by eauto. }
  exists h'. split; [exact Hrun|]. split.
  - apply Forall2_fmap_r.
    assert (∀ l, l ∈ events → h' !! l = normalized <$> heap w !! l) as Hin.
    { intros l Hl. by rewrite Hlk, decide_True. }
    clear Hlk Hrun. induction Hevs as [|l ev events evs Hl Hevs IH]; constructor.
    + rewrite Hin by apply list_elem_of_here. by rewrite Hl.
    + apply IH. intros l' Hl'. apply Hin. by apply list_elem_of_further.
  - intros l Hl. by rewrite Hlk, decide_False.
Qed.

(** Whenever [write_to_csv] returns for a non-empty list, the object's
    file holds the header and the rows of the normalised records. *)
Lemma write_to_csv_returned events (evs : list event) directory object_id w w' :
  events ≠ [] →
  Forall2 (λ l ev, heap w !! l = Some ev) events evs →
  write_to_csv events directory object_id w = Some (Return tt, w') →
  files w' !! csv_path directory object_id
  = Some ((VStr <$> sorted (foldl (λ acc r, acc ∪ dom r) ∅ (normalized <$> evs)))
          :: (row_of (sorted (foldl (λ acc r, acc ∪ dom r) ∅ (normalized <$> evs)))
                <$> (normalized <$> evs))).
Proof.
  intros Hne Hevs. unfold write_to_csv.
  destruct (write_to_csv_dirs_cases directory object_id w)
    as (r1 & d & Hdirs & [(-> & _)|(-> & _)]).
  2:{ by erewrite bind_raise by exact Hdirs. }
  erewrite bind_return by exact Hdirs.
  destruct events as [|e events]; [done|].
  cbv iota. revert Hevs. generalize (e :: events).
  clear e events Hne. intros events Hevs.
  destruct (map_m_normalize_records events evs (set_dirs d w)) as (h' & Hrun & Hrecs & _);
    [exact Hevs|].
  set (header := sorted (foldl (λ acc r, acc ∪ dom r) ∅ (normalized <$> evs))).
  assert (Forall (λ r : event, ∀ k, is_Some (r !! k) → k ∈ header)
            (normalized <$> evs)) as Hkeys.
  { apply Forall_forall. intros r Hr k Hk.
    apply elem_of_sorted, elem_of_fieldnames. right. by exists r. }
  destruct (open_for_writing_cases (csv_path directory object_id)
              (set_heap h' (set_dirs d w))) as [Hopen|[[detail Hopen]|Hopen]].
  - destruct (writerow_cases (csv_path directory object_id) (VStr <$> header)
                (set_files (<[csv_path directory object_id := []]> (files w))
                   (set_heap h' (set_dirs d w)))) as [Hhead|[text Hhead]].
    + simpl in Hhead. rewrite lookup_insert_eq in Hhead. simpl in Hhead.
      match type of Hhead with
      | _ = Some (_, ?w2) =>
          destruct (writerows_cases (csv_path directory object_id) header events
                      (normalized <$> evs) w2 [VStr <$> header])
            as (r & rows' & Hrows & Hkind);
            [exact Hrecs|exact Hkeys|by apply lookup_insert_eq|]
      end.
      destruct Hkind as [[-> ->]|[text ->]].
      * erewrite try_return.
        2:{ erewrite bind_return by exact Hrun.
            erewrite bind_return by (by apply collect_fieldnames).
            erewrite bind_return by exact Hopen.
            erewrite bind_return by exact Hhead.
            exact Hrows. }
        intros [= <-]. simpl. by rewrite lookup_insert_eq.
      * erewrite try_raise; [|
          erewrite bind_return by exact Hrun;
          erewrite bind_return by (by apply collect_fieldnames);
          erewrite bind_return by exact Hopen;
          erewrite bind_return by exact Hhead;
          exact Hrows].
        done.
    + erewrite try_raise; [|
        erewrite bind_return by exact Hrun;
        erewrite bind_return by (by apply collect_fieldnames);
        erewrite bind_return by exact Hopen;
        by erewrite bind_raise by exact Hhead].
      done.
  - erewrite try_raise; [|
      erewrite bind_return by exact Hrun;
      erewrite bind_return by (by apply collect_fieldnames);
      by erewrite bind_raise by exact Hopen].
    done.
  - erewrite try_raise; [|
      erewrite bind_return by exact Hrun;
      erewrite bind_return by (by apply collect_fieldnames);
      by erewrite bind_raise by exact Hopen].
    done.
Qed.

(** C6.  For a non-empty list of events, whenever [write_to_csv] returns
    it has left one file for the object: its first row is the header, the
    field names of all the normalised records in strictly increasing
    lexicographic order, each name once; then one row per record, in
    order, with one cell per header field, holding the record's value for
    that field or the empty string where the record has no such field.
    And it does return where the output location is usable (the directory
    and the object's id are plain names, the two directories exist or can
    be made, the file can be opened) and the normalised records hold only
    field names and texts that the file's encoding can take. *)
Theorem write_to_csv_header_union events (evs : list event) directory object_id w :
  events ≠ [] →
  Forall2 (λ l ev, heap w !! l = Some ev) events evs →
  ∃ header,
    Sorted String.le header ∧ NoDup header ∧
    (∀ k, k ∈ header ↔ ∃ r, r ∈ normalized <$> evs ∧ is_Some (r !! k)) ∧
    (∀ (r : event) j k, header !! j = Some k →
       row_of header r !! j = Some (default (VStr "") (r !! k))) ∧
    (∀ w', write_to_csv events directory object_id w = Some (Return tt, w') →
       files w' !! csv_path directory object_id
       = Some ((VStr <$> header) :: (row_of header <$> (normalized <$> evs)))) ∧
    (fs_ready directory object_id w →
     Forall (encodable_record w) (normalized <$> evs) →
     ∃ w', write_to_csv events directory object_id w = Some (Return tt, w')).
Proof.
  intros Hne Hevs.
  exists (sorted (foldl (λ acc r, acc ∪ dom r) ∅ (normalized <$> evs))).
  split; [apply sorted_Sorted|]. split; [apply sorted_NoDup|].
  split; [|split; [|split]].
  - intros k. rewrite elem_of_sorted, elem_of_fieldnames.
    split; [intros [Hk|Hk]; [by apply elem_of_empty in Hk|done]|by right].
  - intros r j k Hj. unfold row_of. by rewrite list_lookup_fmap, Hj.
  - intros w' Hrun. by eapply write_to_csv_returned.
  - intros Hfs Henc.
    destruct (write_to_csv_eq _ _ _ _ _ Hne Hevs Hfs Henc) as (h' & header & Hrun & _).
    eexists. exact Hrun.
Qed.

(** C9, as the code has it.  With no events, a plain directory name and
    usable output directories [write_to_csv] returns normally and neither
    creates nor changes any file; before it looks at the list it makes
    sure the two output directories exist, and it logs a warning.
    [download_data] does not get that far for an object without events:
    once the fetch has returned an empty list, the loop body records the
    object's id among the objects without events, with no file or
    directory touched. *)
Theorem write_to_csv_no_events :
  (∀ directory object_id w,
     plain_name directory →
     can_makedirs "braintrust_data" w →
     can_makedirs ("braintrust_data/" +:+ directory) w →
     ∃ w',
       write_to_csv [] directory object_id w = Some (Return tt, w') ∧
       files w' = files w ∧ heap w' = heap w ∧ net w' = net w ∧ sent w' = sent w ∧
       dirs w' = {["braintrust_data/" +:+ directory]} ∪ ({["braintrust_data"]} ∪ dirs w) ∧
       log w' = log w ++ [WarnNoEvents object_id]) ∧
  (∀ endpoint headers t o w0 w1,
     fetch_events (obj_id o) endpoint 100 headers w0 = Some (Return [], w1) →
     process_object endpoint headers t o w0
       = Some (Return (Tally (failed_endpoints t) (failed_objects t)
                             (objects_without_events t ++ [obj_id o])), w1) ∧
     files w1 = files w0 ∧ dirs w1 = dirs w0).
Proof.
  split.
  - intros directory object_id w (_ & _ & _ & Hplain & _) H1 H2. eexists. split.
    + unfold write_to_csv.
      erewrite bind_return by (by apply write_to_csv_makedirs). done.
    + simpl. by rewrite output_dirs_plain.
  - intros endpoint headers t o w0 w1 Hfetch. split.
    + unfold process_object. apply try_return.
      by erewrite bind_return by exact Hfetch.
    + destruct (fetch_events_total (obj_id o) endpoint 100 headers w0)
        as (r & w' & Hrun & Hd & Hf & _).
      rewrite Hfetch in Hrun. by injection Hrun as <- <-.
Qed.

(** ** [download_data] *)

(** The loop body does what [handled] says and never raises. *)
Lemma process_object_handled endpoint headers t o w out w' :
  handled endpoint headers o w out w' →
  process_object endpoint headers t o w
  = Some (Return (record_outcome endpoint t o out), w').
Proof.
  unfold process_object.
  destruct 1 as [events w1 w2 Hfetch Hne Hwrite|w1 Hfetch|e w1 Hfetch
                |events e w1 w2 Hfetch Hne Hwrite].
  - apply try_return. erewrite bind_return by exact Hfetch.
    destruct events; [done|]. by erewrite bind_return by exact Hwrite.
  - apply try_return. by erewrite bind_return by exact Hfetch.
  - by erewrite try_raise by (by erewrite bind_raise by exact Hfetch).
  - erewrite try_raise; [reflexivity|].
    erewrite bind_return by exact Hfetch.
    destruct events; [done|]. by erewrite bind_raise by exact Hwrite.
Qed.

(** Every object gets an outcome, whatever the world it is met in. *)
Lemma handled_total endpoint headers o w :
  ∃ out w', handled endpoint headers o w out w' ∧ ∃ entries, log w' = log w ++ entries.
Proof.
  destruct (fetch_events_total (obj_id o) endpoint 100 headers w)
    as (r & w1 & Hfetch & _ & _ & _ & [entries1 Hlog1] & Hlive).
  destruct r as [events|e].
  - destruct events as [|ev events].
    { exists NoEvents, w1. split; [by constructor|by eexists]. }
    destruct (write_to_csv_total (ev :: events) endpoint (obj_id o) w1 Hlive)
      as (r2 & w2 & Hwrite & [entries2 Hlog2]).
    destruct r2 as [[]|e].
    + exists Written, w2. split; [by econstructor|].
      rewrite Hlog2, Hlog1, <-app_assoc. by eexists.
    + eexists (FailedWith e), _. split; [by eapply handled_write_failed|].
      simpl. rewrite Hlog2, Hlog1, <-!app_assoc. by eexists.
  - eexists (FailedWith e), _. split; [by apply handled_fetch_failed|].
    simpl. rewrite Hlog1, <-!app_assoc. by eexists.
Qed.




Lemma handled_all_total endpoint headers objects : ∀ w,
  ∃ outs w', handled_all endpoint headers objects w outs w'.
Proof.
  induction objects as [|o objects IH]; intros w.
  - exists [], w. constructor.
  - destruct (handled_total endpoint headers o w) as (out & w1 & H1 & _).
    destruct (IH w1) as (outs & w2 & H2).
    exists (out :: outs), w2. by econstructor.
Qed.


Lemma ids_where_cons p o objects out outs :
  ids_where p (o :: objects) (out :: outs)
  = (if p out then [obj_id o] else []) ++ ids_where p objects outs.
Proof.
  unfold ids_where. simpl. rewrite filter_cons. simpl.
  by destruct (p out); simpl.
Qed.

(** The whole loop: it returns the tally of the outcomes. *)
Lemma process_objects_handled endpoint headers objects w outs w' :
  handled_all endpoint headers objects w outs w' →
  ∀ t,
    fold_m (λ t o, try_except (process_object endpoint headers t o)
                              (on_fatal endpoint (failed_objects t))) t objects w
    = Some (Return
        (Tally (failed_endpoints t
                  ++ replicate (length (ids_where is_failed objects outs)) endpoint)
               (failed_objects t ++ ids_where is_failed objects outs)
               (objects_without_events t ++ ids_where is_no_events objects outs)),
        w').
Proof.
  induction 1 as [w|o objects w out w1 outs w2 H1 H2 IH]; intros t; simpl.
  - unfold ret. rewrite !app_nil_r. by destruct t.
  - erewrite bind_return
      by (apply try_return; by apply process_object_handled).
    rewrite IH, !ids_where_cons.
    destruct out; simpl; rewrite <-?app_assoc, ?app_nil_r; done.
Qed.

Lemma download_data_listing_failed endpoint project_id project_name headers w e w1 :
  fetch_object_list endpoint 10 None project_id project_name headers w
    = Some (Raise e, w1) →
  download_data endpoint project_id project_name headers w
  = Some (Raise e, add_logs [ErrDownload endpoint e; ErrFailedObjects endpoint []] w1).
Proof.
  intros Hlist. unfold download_data.
  erewrite bind_raise; [reflexivity|].
  erewrite try_raise by exact Hlist.
  unfold on_fatal, add_logs, mbind, M_bind, bind, logger, raise, add_log. simpl.
  by rewrite <-app_assoc.
Qed.

Lemma download_data_listed endpoint project_id project_name headers w objects w1 outs w2 :
  fetch_object_list endpoint 10 None project_id project_name headers w
    = Some (Return objects, w1) →
  handled_all endpoint headers objects w1 outs w2 →
  download_data endpoint project_id project_name headers w
  = Some (Return tt,
          add_logs (summary_lines endpoint (length objects)
                      (ids_where is_no_events objects outs)
                      (length (ids_where is_failed objects outs))) w2).
Proof.
  intros Hlist Hall. unfold download_data.
  erewrite bind_return by (apply try_return; exact Hlist).
  erewrite bind_return by (by apply process_objects_handled).
  unfold summary_lines, log_summary. simpl.
  destruct (ids_where is_no_events objects outs) as [|id ids];
    destruct (length (ids_where is_failed objects outs)) as [|n];
    unfold try_except, add_logs, mbind, M_bind, bind, logger, ret, add_log; simpl;
    by rewrite <-?app_assoc.
Qed.

(** The promotion leaves alone every key of an event whose [input] is not
    a mapping, and every key but the four it assigns otherwise. *)
Lemma promote_kept (ev : event) key :
  (∀ d, ev !! "input" ≠ Some (VDict d)) ∨
  key ∉ ["input"; "output"; "expected"; "metadata"] →
  promote ev !! key = ev !! key.
Proof.
  intros Hkept. unfold promote.
  destruct (ev !! "input") as [[]|] eqn:E; try done.
  destruct Hkept as [Hno|Hkey]; [by destruct (Hno fields)|].
  rewrite !not_elem_of_cons in Hkey. destruct Hkey as (?&?&?&?&_).
  by rewrite !lookup_insert_ne, lookup_delete_ne by done.
Qed.

(** C4.  When the event's [input] is a mapping [d], [normalize_event]
    leaves under [input], [output], [expected] and [metadata] the
    same-named entries of [d] ([None] for an entry [d] lacks), each
    serialised like any other value if it is nested; what these four keys
    held before, the mapping [d] included, is gone.  The entries of [d] are
    read once: an entry that is itself a mapping is serialised, not
    expanded again.  Every other key keeps its (serialised) value. *)
Theorem normalize_event_promotes_input l w ev d :
  heap w !! l = Some ev →
  ev !! "input" = Some (VDict d) →
  ∃ w' r,
    normalize_event l w = Some (Return l, w') ∧ heap w' !! l = Some r ∧
    r !! "input" = Some (flatten (fields_get d "input")) ∧
    r !! "output" = Some (flatten (fields_get d "output")) ∧
    r !! "expected" = Some (flatten (fields_get d "expected")) ∧
    r !! "metadata" = Some (flatten (fields_get d "metadata")) ∧
    (∀ key, key ∈ ["input"; "output"; "expected"; "metadata"] →
            key ∉ d.*1 → r !! key = Some VNone) ∧
    (∀ key, key ∉ ["input"; "output"; "expected"; "metadata"] →
            r !! key = flatten <$> ev !! key).
Proof.
  intros H E. exists (put l (normalized ev) w), (normalized ev).
  split; [by apply normalize_event_eq|]. split; [by eapply heap_put|].
  assert (∀ key, key ∈ ["input"; "output"; "expected"; "metadata"] →
            normalized ev !! key = Some (flatten (fields_get d key))) as Hfour.
  { intros key Hkey. unfold normalized, promote. rewrite E, lookup_fmap.
    repeat (apply elem_of_cons in Hkey as [->|Hkey]; [by simplify_map_eq|]).
    by apply elem_of_nil in Hkey. }
  repeat split; try (apply Hfour; set_solver).
  - intros key Hkey Hd. rewrite Hfour by done. by rewrite fields_get_missing.
  - intros key Hkey. unfold normalized, promote. rewrite E, lookup_fmap.
    rewrite !not_elem_of_cons in Hkey. destruct Hkey as (?&?&?&?&_).
    by rewrite !lookup_insert_ne, lookup_delete_ne by done.
Qed.

(** C5.  After [normalize_event] every value of the record is a scalar,
    and every field is accounted for.  The record holds exactly the
    fields left by the promotion of [input], a nested value (mapping or
    list) replaced by the string [json.dumps] gives for it, which depends
    on that value only, and a scalar by itself.  In terms of the event
    passed in: every field that the promotion does not overwrite (all of
    them when [input] is not a mapping, all but [input], [output],
    [expected] and [metadata] when it is) is in the result, unchanged if
    it was a scalar and serialised if it was nested. *)
Theorem normalize_event_values_scalar l w ev :
  heap w !! l = Some ev →
  ∃ w' r,
    normalize_event l w = Some (Return l, w') ∧ heap w' !! l = Some r ∧
    (∀ key v, r !! key = Some v →
       is_scalar v = true ∧
       ∃ v0, promote ev !! key = Some v0 ∧
             v = (if is_nested v0 then VStr (json_dumps v0) else v0)) ∧
    (∀ key v0, promote ev !! key = Some v0 →
       r !! key = Some (if is_nested v0 then VStr (json_dumps v0) else v0)) ∧
    (∀ key v0,
       ev !! key = Some v0 →
       (∀ d, ev !! "input" ≠ Some (VDict d)) ∨
       key ∉ ["input"; "output"; "expected"; "metadata"] →
       (is_scalar v0 = true → r !! key = Some v0) ∧
       (is_nested v0 = true → r !! key = Some (VStr (json_dumps v0)))).
Proof.
  intros H. exists (put l (normalized ev) w), (normalized ev).
  split; [by apply normalize_event_eq|]. split; [by eapply heap_put|].
  split; [|split].
  - intros key v. unfold normalized. rewrite lookup_fmap.
    destruct (promote ev !! key) as [v0|]; simpl; [|done].
    intros [= <-]. split; [apply flatten_scalar|by exists v0].
  - intros key v0 Hv0. unfold normalized. by rewrite lookup_fmap, Hv0.
  - intros key v0 Hv0 Hkept.
    assert (normalized ev !! key = Some (flatten v0)) as ->.
    { unfold normalized. rewrite lookup_fmap, promote_kept, Hv0 by done. done. }
    split.
    + intros Hs. by rewrite flatten_id.
    + intros Hn. unfold flatten. by rewrite Hn.
Qed.

(** C8, as the code has it.  [normalize_event] returns for every event
    and touches neither network, files nor log; what it returns depends on
    the event's contents alone.  It works in place: the result is the
    reference it was given, and the mapping behind that reference now holds
    the normalised record; no other mapping of the store changes. *)
Theorem normalize_event_total_in_place l w ev :
  heap w !! l = Some ev →
  ∃ w',
    normalize_event l w = Some (Return l, w') ∧
    heap w' = <[l := normalized ev]> (heap w) ∧
    heap w' !! l = Some (normalized ev) ∧
    (∀ l', l' ≠ l → heap w' !! l' = heap w !! l') ∧
    net w' = net w ∧ sent w' = sent w ∧ dirs w' = dirs w ∧
    files w' = files w ∧ denied w' = denied w ∧ log w' = log w.
Proof.
  intros H. exists (put l (normalized ev) w).
  split; [by apply normalize_event_eq|].
  split; [done|]. split; [by eapply heap_put|].
  split; [|done]. intros l' Hne. by apply heap_put_ne.
Qed.

(** C10.  An event whose values are all scalars is left as it is. *)
Theorem normalize_event_scalar_identity l w ev :
  heap w !! l = Some ev →
  (∀ key v, ev !! key = Some v → is_scalar v = true) →
  normalize_event l w = Some (Return l, w).
Proof.
  intros H Hsc. rewrite (normalize_event_eq _ _ _ H).
  rewrite normalized_scalar_id by done. by rewrite put_same.
Qed.


(** C7, as the code has it.  Once the listing has returned and the
    objects have had their turns, [download_data] ends its log with: a
    completion line for the endpoint, the number of objects listed, the
    number of objects without events, their ids when there are any, and,
    when some object failed, one error line that holds the endpoint name
    once per failed object. *)
Theorem download_data_summary endpoint project_id project_name headers w objects w1 :
  fetch_object_list endpoint 10 None project_id project_name headers w
    = Some (Return objects, w1) →
  ∃ outs w2 w',
    handled_all endpoint headers objects w1 outs w2 ∧
    download_data endpoint project_id project_name headers w = Some (Return tt, w') ∧
    log w' =
      log w2
      ++ [InfoComplete endpoint; InfoTotal (length objects);
          InfoNoEventsCount (length (ids_where is_no_events objects outs))]
      ++ match ids_where is_no_events objects outs with
         | [] => []
         | ids => [InfoNoEventsIds ids]
         end
      ++ match length (ids_where is_failed objects outs) with
         | O => []
         | n => [ErrFailedEndpoints (replicate n endpoint)]
         end.
Proof.
  intros Hlist.
  destruct (handled_all_total endpoint headers objects w1) as (outs & w2 & Hall).
  eexists outs, w2, _.
  split; [exact Hall|]. split; [by eapply download_data_listed|].
  simpl. unfold summary_lines.
  by destruct (ids_where is_no_events objects outs),
     (length (ids_where is_failed objects outs)).
Qed.

(** * Further properties of the code *)

(** ** [normalize_event] *)

(** X1.  Normalising a mapping that has been normalised changes nothing:
    two calls in a row leave the world as one call does. *)
Theorem normalize_event_idempotent l w ev :
  heap w !! l = Some ev →
  (normalize_event l ;; normalize_event l) w = normalize_event l w.
Proof.
  intros H. rewrite (normalize_event_eq _ _ _ H).
  erewrite bind_return by (by apply normalize_event_eq).
  erewrite normalize_event_eq by (by eapply heap_put).
  by rewrite put_put, normalized_idem.
Qed.

Lemma dom_promote_dict (ev : event) d :
  ev !! "input" = Some (VDict d) →
  dom (promote ev) = dom ev ∪ {["output"; "expected"; "metadata"]}.
Proof.
  intros E. unfold promote. rewrite E, !dom_insert_L, dom_delete_L.
  apply set_eq. intros k.
  assert ("input" ∈ dom ev) as Hin by (apply elem_of_dom; by eexists).
  rewrite !elem_of_union, elem_of_difference, !elem_of_singleton.
  destruct (decide (k = "input")) as [->|Hne]; [tauto|]. tauto.
Qed.

(** X2.  The keys of the normalised record are the keys of the event,
    with [output], [expected] and [metadata] added when [input] was a
    mapping; no key is ever removed. *)
Theorem normalize_event_keys l w ev :
  heap w !! l = Some ev →
  ∃ w' r,
    normalize_event l w = Some (Return l, w') ∧ heap w' !! l = Some r ∧
    dom r = (if is_dict (default VNone (ev !! "input"))
             then dom ev ∪ {["output"; "expected"; "metadata"]}
             else dom ev).
Proof.
  intros H. exists (put l (normalized ev) w), (normalized ev).
  split; [by apply normalize_event_eq|]. split; [by eapply heap_put|].
  unfold normalized. rewrite dom_fmap_L.
  destruct (ev !! "input") as [input|] eqn:E; simpl.
  - destruct input; simpl; try (by unfold promote; rewrite E).
    by eapply dom_promote_dict.
  - by unfold promote; rewrite E.
Qed.

(** X3.  When [input] is absent or is not a mapping (a list, say, or a
    string) nothing is promoted: every key keeps its own value,
    serialised if nested, and [output], [expected] and [metadata] are
    not created. *)
Theorem normalize_event_without_mapping_input l w ev :
  heap w !! l = Some ev →
  is_dict (default VNone (ev !! "input")) = false →
  ∃ w' r,
    normalize_event l w = Some (Return l, w') ∧ heap w' !! l = Some r ∧
    ∀ key, r !! key = flatten <$> ev !! key.
Proof.
  intros H Hin. exists (put l (normalized ev) w), (normalized ev).
  split; [by apply normalize_event_eq|]. split; [by eapply heap_put|].
  intros key. unfold normalized, promote. rewrite lookup_fmap.
  destruct (ev !! "input") as [[]|]; simpl in Hin; done.
Qed.

(** ** [fetch_object_list] *)

Lemma object_list_turn_index_error endpoint limit headers params all w data rest :
  net w = Answer data :: rest →
  limit ≤ Z.of_nat (length (json_objects data)) →
  last (json_objects data) = None →
  object_list_turn endpoint limit headers params all w
  = Some (Raise IndexError,
          add_log (ErrUnexpectedObjectList IndexError)
            (set_net rest (sent w ++ [Request (object_list_url endpoint) headers params]) w)).
Proof.
  intros Hnet Hfull Hlast. unfold object_list_turn.
  erewrite try_raise
    by (erewrite bind_return by (by apply requests_get_answer);
        by rewrite (proj2 (Z.ltb_ge _ _) Hfull), Hlast).
  reflexivity.
Qed.

Lemma listing_request_insert endpoint headers params v q :
  listing_request endpoint headers (<["starting_after" := v]> params) q →
  listing_request endpoint headers params q.
Proof.
  intros (Hurl & Hh & Hp). split; [done|]. split; [done|].
  intros k Hk. rewrite Hp by done. by rewrite lookup_insert_ne.
Qed.

(** The loop ends whatever the API answers.  It sends at least one
    request, all alike but for [starting_after]; it leaves store and files
    alone; and with a limit that is not positive it can only end in an
    exception. *)
Lemma object_list_loop_run endpoint limit headers fuel : ∀ params all w,
  (length (net w) < fuel)%nat →
  ∃ r w' reqs,
    object_list_loop fuel endpoint limit headers params all w = Some (r, w') ∧
    sent w' = sent w ++ reqs ∧ reqs ≠ [] ∧
    Forall (listing_request endpoint headers params) reqs ∧
    heap w' = heap w ∧ dirs w' = dirs w ∧ files w' = files w ∧ denied w' = denied w ∧
    (∃ entries, log w' = log w ++ entries) ∧
    (limit ≤ 0 → ∃ e, r = Raise e).
Proof.
  induction fuel as [|fuel IH]; intros params all w Hfuel; [lia|]. simpl.
  assert (listing_request endpoint headers params
            (Request (object_list_url endpoint) headers params)) as Hfirst by done.
  destruct (transport_error_cases w) as [[e He]|(data & rest & Hnet)].
  { erewrite bind_raise by (by apply object_list_turn_error).
    eexists _, _, [_]. split; [done|]. simpl.
    split; [reflexivity|]. split; [done|]. split; [by constructor|].
    do 4 (split; [reflexivity|]). split; [by eexists|]. by eexists. }
  destruct (decide (Z.of_nat (length (json_objects data)) < limit)) as [Hshort|Hfull].
  { erewrite bind_return by (by apply object_list_turn_last).
    eexists _, _, [_]. split; [done|]. simpl.
    split; [reflexivity|]. split; [done|]. split; [by constructor|].
    do 4 (split; [reflexivity|]). split; [by exists []; rewrite app_nil_r|]. lia. }
  apply Z.nlt_ge in Hfull.
  destruct (last (json_objects data)) as [o|] eqn:Hlast.
  - erewrite bind_return
      by (eapply object_list_turn_more; [exact Hnet|exact Hfull|exact Hlast]).
    cbv beta iota.
    match goal with
    | |- context [object_list_loop _ _ _ _ ?p ?a ?w1] =>
        destruct (IH p a w1)
          as (r & w' & reqs & Hrun & Hsent & _ & Hreqs & Hheap & Hd & Hf & Hden
              & [entries Hlog] & Hlim)
    end.
    { simpl. rewrite Hnet in Hfuel. simpl in Hfuel. lia. }
    exists r, w', (Request (object_list_url endpoint) headers params :: reqs).
    split; [exact Hrun|]. simpl in *.
    split; [by rewrite Hsent, <-app_assoc|]. split; [done|].
    split; [constructor; [done|]; eapply Forall_impl; [exact Hreqs|];
            intros q; apply listing_request_insert|].
    do 4 (split; [done|]). split; [by eexists|]. done.
  - erewrite bind_raise by (by eapply object_list_turn_index_error).
    eexists _, _, [_]. split; [done|]. simpl.
    split; [reflexivity|]. split; [done|]. split; [by constructor|].
    do 4 (split; [reflexivity|]). split; [by eexists|]. by eexists.
Qed.

Lemma lookup_set_if_truthy key s (params : gmap string param) k :
  set_if_truthy key s params !! k
  = if decide (k = key)
    then (if truthy s then PStr <$> s else params !! k)
    else params !! k.
Proof.
  unfold set_if_truthy.
  destruct s as [[|a v]|]; simpl; case_decide; subst;
    rewrite ?lookup_insert_eq, ?lookup_insert_ne by done; done.
Qed.

(** X4.  When a call of [fetch_object_list] has ended, by returning or
    by raising, it has sent at least one request, and every request it
    has sent went to the endpoint's URL with the caller's headers, the
    limit, and the project filter the caller gave (a [project_id] or
    [project_name] of [None] or [''] is left out).  It has touched neither
    the store nor any file or directory. *)
Theorem fetch_object_list_requests endpoint limit starting_after project_id project_name
    headers w r w' :
  fetch_object_list endpoint limit starting_after project_id project_name headers w
    = Some (r, w') →
  ∃ reqs,
    sent w' = sent w ++ reqs ∧ reqs ≠ [] ∧
    Forall (λ q,
      req_url q = object_list_url endpoint ∧ req_headers q = headers ∧
      req_params q !! "limit" = Some (PInt limit) ∧
      req_params q !! "project_id"
        = (if truthy project_id then PStr <$> project_id else None) ∧
      req_params q !! "project_name"
        = (if truthy project_name then PStr <$> project_name else None)) reqs ∧
    heap w' = heap w ∧ dirs w' = dirs w ∧ files w' = files w.
Proof.
  unfold fetch_object_list. intros Hended.
  match type of Hended with
  | object_list_loop ?f _ _ _ ?p ?a w = _ =>
      destruct (object_list_loop_run endpoint limit headers f p a w)
        as (r0 & w0 & reqs & Hrun & Hsent & Hne & Hreqs & Hheap & Hd & Hf & _)
  end; [lia|].
  rewrite Hended in Hrun. injection Hrun as <- <-.
  exists reqs. repeat split; try done.
  eapply Forall_impl; [exact Hreqs|]. intros q (Hurl & Hh & Hp).
  split; [done|]. split; [done|].
  rewrite !Hp by done. rewrite !lookup_set_if_truthy. simpl.
  repeat split.
Qed.

(** X5.  With a limit that is not positive no page is ever short, so
    [fetch_object_list] cannot return a list: a call that ends, ends by
    raising (an [IndexError] on an empty page, else a transport error). *)
Theorem fetch_object_list_nonpositive_limit endpoint limit starting_after project_id
    project_name headers w r w' :
  limit ≤ 0 →
  fetch_object_list endpoint limit starting_after project_id project_name headers w
    = Some (r, w') →
  ∃ e, r = Raise e.
Proof.
  intros Hlimit. unfold fetch_object_list. intros Hended.
  match type of Hended with
  | object_list_loop ?f _ _ _ ?p ?a w = _ =>
      destruct (object_list_loop_run endpoint limit headers f p a w)
        as (r0 & w0 & reqs & Hrun & _ & _ & _ & _ & _ & _ & _ & _ & Hlim)
  end; [lia|].
  rewrite Hended in Hrun. injection Hrun as <- <-. by apply Hlim.
Qed.

Lemma object_list_loop_failure endpoint limit headers (full : list body) detail rest :
  0 < limit →
  Forall (λ d, limit ≤ Z.of_nat (length (json_objects d))) full →
  ∀ fuel params all w,
    net w = (Answer <$> full) ++ Failed detail :: rest →
    (length full < fuel)%nat →
    object_list_loop fuel endpoint limit headers params all w
    = Some (Raise (RequestException detail),
            add_log (ErrFetchObjectList endpoint (RequestException detail))
              (set_net rest
                 (sent w ++ object_list_requests endpoint headers params
                              (json_objects <$> full)) w)).
Proof.
  intros Hlimit Hfull.
  induction Hfull as [|d full Hd Hfull IH]; intros fuel params all w Hnet Hfuel;
    (destruct fuel as [|fuel]; [simpl in Hfuel; lia|]); simpl in *.
  - erewrite bind_raise; [reflexivity|].
    rewrite (object_list_turn_error _ _ _ _ _ _ (RequestException detail))
      by (by unfold transport_error; rewrite Hnet).
    by rewrite Hnet.
  - destruct (last (json_objects d)) as [o|] eqn:Hlast.
    2:{ apply last_None in Hlast. rewrite Hlast in Hd. simpl in *. lia. }
    erewrite bind_return by (by eapply object_list_turn_more).
    cbv beta iota. erewrite IH; [|done|lia].
    simpl. by rewrite <-!app_assoc.
Qed.

(** X6.  When the API fails on a page after any number of full pages,
    [fetch_object_list] raises the transport error and logs it once with
    the endpoint; the objects of the pages already received are not
    returned, and no further request is sent. *)
Theorem fetch_object_list_failure endpoint limit starting_after project_id project_name
    headers (full : list body) detail rest w :
  0 < limit →
  net w = (Answer <$> full) ++ Failed detail :: rest →
  Forall (λ d, limit ≤ Z.of_nat (length (json_objects d))) full →
  let params :=
    set_if_truthy "project_name" project_name
      (set_if_truthy "project_id" project_id
         (set_if_truthy "starting_after" starting_after {["limit" := PInt limit]})) in
  fetch_object_list endpoint limit starting_after project_id project_name headers w
  = Some (Raise (RequestException detail),
          add_log (ErrFetchObjectList endpoint (RequestException detail))
            (set_net rest
               (sent w ++ object_list_requests endpoint headers params
                            (json_objects <$> full)) w)).
Proof.
  intros Hlimit Hnet Hfull params. unfold fetch_object_list.
  erewrite object_list_loop_failure; [done..|].
  rewrite Hnet, length_app, length_fmap. simpl. lia.
Qed.

(** ** [fetch_events] *)

Lemma events_request_limit limit cursor :
  set_if_truthy "cursor" cursor ({["limit" := PInt limit]} : gmap string param) !! "limit"
  = Some (PInt limit).
Proof. rewrite lookup_set_if_truthy. simpl. by rewrite lookup_singleton_eq. Qed.

(** The loop ends whatever the API answers.  Its requests all go to the
    object's fetch URL with the limit; the store only grows, by the
    events decoded, and a list that is returned ends with the references
    to exactly these; files are left alone. *)
Lemma events_loop_run object_id endpoint limit headers fuel : ∀ cursor evs w,
  (length (net w) < fuel)%nat →
  ∃ r w' reqs new,
    events_loop fuel object_id endpoint limit headers cursor evs w = Some (r, w') ∧
    sent w' = sent w ++ reqs ∧ reqs ≠ [] ∧
    Forall (λ q, req_url q = events_url endpoint object_id ∧ req_headers q = headers ∧
                 req_params q !! "limit" = Some (PInt limit)) reqs ∧
    heap w' = heap w ++ new ∧
    dirs w' = dirs w ∧ files w' = files w ∧ denied w' = denied w ∧
    ∀ evs', r = Return evs' → evs' = evs ++ seq (length (heap w)) (length new).
Proof.
  induction fuel as [|fuel IH]; intros cursor evs w Hfuel; [lia|]. simpl.
  destruct (transport_error_cases w) as [[e He]|(data & rest & Hnet)].
  { erewrite bind_raise by (by apply events_turn_error).
    eexists _, _, [_], []. split; [done|]. simpl.
    split; [reflexivity|]. split; [done|].
    split; [constructor; [|done]; repeat split; apply events_request_limit|].
    split; [by rewrite app_nil_r|]. by do 3 (split; [reflexivity|]). }
  erewrite bind_return by (by apply events_turn_answer). cbv beta iota.
  destruct (truthy (body_cursor data)).
  - match goal with
    | |- context [events_loop _ _ _ _ _ ?c ?l ?w1] =>
        destruct (IH c l w1)
          as (r & w' & reqs & new & Hrun & Hsent & _ & Hreqs & Hheap & Hd & Hf & Hden & Hr)
    end.
    { simpl. rewrite Hnet in Hfuel. simpl in Hfuel. lia. }
    eexists r, w', (_ :: reqs), (events_of data ++ new).
    split; [exact Hrun|]. simpl in *.
    split; [by rewrite Hsent, <-app_assoc|]. split; [done|].
    split; [constructor; [|done]; repeat split; apply events_request_limit|].
    split; [by rewrite Hheap, <-app_assoc|]. do 3 (split; [done|]).
    intros evs' ->. rewrite (Hr _ eq_refl).
    by rewrite !length_app, seq_app, <-app_assoc.
  - eexists _, _, [_], (events_of data). split; [done|]. simpl.
    split; [reflexivity|]. split; [done|].
    split; [constructor; [|done]; repeat split; apply events_request_limit|].
    do 4 (split; [reflexivity|]). by intros evs' [= <-].
Qed.

Lemma fetch_events_run object_id endpoint limit headers w :
  ∃ r w' reqs new,
    fetch_events object_id endpoint limit headers w = Some (r, w') ∧
    sent w' = sent w ++ reqs ∧ reqs ≠ [] ∧
    Forall (λ q, req_url q = events_url endpoint object_id ∧ req_headers q = headers ∧
                 req_params q !! "limit" = Some (PInt limit)) reqs ∧
    heap w' = heap w ++ new ∧
    dirs w' = dirs w ∧ files w' = files w ∧ denied w' = denied w ∧
    ∀ evs, r = Return evs → evs = seq (length (heap w)) (length new).
Proof. unfold fetch_events. apply events_loop_run. lia. Qed.

Lemma appended_references (new : list event) : ∀ h : list event,
  Forall2 (λ l ev, (h ++ new) !! l = Some ev) (seq (length h) (length new)) new.
Proof.
  induction new as [|ev new IH]; intros h; simpl; constructor.
  - by apply list_lookup_middle.
  - specialize (IH (h ++ [ev])).
    rewrite <-app_assoc, length_app in IH. simpl in IH.
    by rewrite Nat.add_1_r in IH.
Qed.

(** X7.  When a call of [fetch_events] has ended, by returning or by
    raising, it has sent at least one request, and every request it has
    sent went to the fetch URL of that object with the caller's headers
    and the limit; the mappings already in the store are kept as they
    are, and a list that is returned refers to exactly the mappings the
    call added, in order; no file or directory is touched. *)
Theorem fetch_events_requests_and_store object_id endpoint limit headers w r w' :
  fetch_events object_id endpoint limit headers w = Some (r, w') →
  ∃ reqs new,
    sent w' = sent w ++ reqs ∧ reqs ≠ [] ∧
    Forall (λ q, req_url q = events_url endpoint object_id ∧ req_headers q = headers ∧
                 req_params q !! "limit" = Some (PInt limit)) reqs ∧
    heap w' = heap w ++ new ∧
    (∀ evs, r = Return evs →
       evs = seq (length (heap w)) (length new) ∧
       Forall2 (λ l ev, heap w' !! l = Some ev) evs new) ∧
    dirs w' = dirs w ∧ files w' = files w.
Proof.
  intros Hended.
  destruct (fetch_events_run object_id endpoint limit headers w)
    as (r0 & w0 & reqs & new & Hrun & Hsent & Hne & Hreqs & Hheap & Hd & Hf & _ & Hr).
  rewrite Hended in Hrun. injection Hrun as <- <-.
  exists reqs, new.
  do 4 (split; [done|]). split; [|done].
  intros evs ->. rewrite (Hr _ eq_refl). split; [done|].
  rewrite Hheap. apply appended_references.
Qed.

Lemma events_loop_failure object_id endpoint limit headers (more : list body) detail rest :
  Forall (λ d, truthy (body_cursor d) = true) more →
  ∀ fuel cursor evs w,
    net w = (Answer <$> more) ++ Failed detail :: rest →
    (length more < fuel)%nat →
    events_loop fuel object_id endpoint limit headers cursor evs w
    = Some (Raise (RequestException detail),
            add_log (ErrFetchEvents endpoint object_id (RequestException detail))
              (set_heap (heap w ++ concat (events_of <$> more))
                 (set_net rest
                    (sent w ++
                     ((λ c, Request (events_url endpoint object_id) headers
                              (set_if_truthy "cursor" c {["limit" := PInt limit]}))
                        <$> cursor :: (body_cursor <$> more))) w))).
Proof.
  intros Hmore.
  induction Hmore as [|d more Hd Hmore IH]; intros fuel cursor evs w Hnet Hfuel;
    (destruct fuel as [|fuel]; [simpl in Hfuel; lia|]); simpl in *.
  - erewrite bind_raise; [reflexivity|].
    rewrite (events_turn_error _ _ _ _ _ _ _ (RequestException detail))
      by (by unfold transport_error; rewrite Hnet).
    rewrite Hnet, app_nil_r. by destruct w.
  - erewrite bind_return by (by apply events_turn_answer).
    cbv beta iota. rewrite Hd. erewrite IH; [|done|lia].
    simpl. by rewrite <-!app_assoc.
Qed.

(** X8.  When the API fails after any number of answers that carried a
    cursor, [fetch_events] raises the transport error and logs it once
    with the endpoint and the object's id; the events already received
    are not returned, and no further request is sent. *)
Theorem fetch_events_failure object_id endpoint limit headers
    (more : list body) detail rest w :
  net w = (Answer <$> more) ++ Failed detail :: rest →
  Forall (λ d, truthy (body_cursor d) = true) more →
  fetch_events object_id endpoint limit headers w
  = Some (Raise (RequestException detail),
          add_log (ErrFetchEvents endpoint object_id (RequestException detail))
            (set_heap (heap w ++ concat (events_of <$> more))
               (set_net rest
                  (sent w ++ events_requests object_id endpoint limit headers more) w))).
Proof.
  intros Hnet Hmore. unfold fetch_events.
  erewrite events_loop_failure; [|done|done|].
  - unfold events_requests. by rewrite fmap_cons, <-list_fmap_compose.
  - rewrite Hnet, length_app, length_fmap. simpl. lia.
Qed.

(** ** [write_to_csv] *)


(** X10.  Where one of the two output directories can neither be found
    nor made, [write_to_csv] raises [UnboundLocalError] for [filename],
    whatever the events: the [except IOError] clause fails on its own
    message, so nothing is logged; no file is written and no event is
    normalised. *)
Theorem write_to_csv_directory_failure events directory object_id w :
  ¬ can_makedirs "braintrust_data" w ∨
  ¬ can_makedirs ("braintrust_data/" +:+ directory) w →
  ∃ w',
    write_to_csv events directory object_id w
      = Some (Raise (UnboundLocalError "filename"), w') ∧
    log w' = log w ∧ files w' = files w ∧ heap w' = heap w.
Proof.
  intros Hcannot. unfold write_to_csv.
  destruct (write_to_csv_dirs_cases directory object_id w)
    as (r1 & d & Hdirs & [(-> & _ & H1 & H2)|(-> & _)]); [tauto|].
  erewrite bind_raise by exact Hdirs. by eexists.
Qed.

(** X11.  Where the directories are fine but the object's file cannot be
    opened (its path is a directory, or the system refuses it),
    [write_to_csv] raises the [IOError] and logs it with the file name.
    No file is created or changed; the events have been normalised in
    place all the same. *)
Theorem write_to_csv_open_failure events (evs : list event) directory object_id w :
  events ≠ [] →
  Forall2 (λ l ev, heap w !! l = Some ev) events evs →
  can_makedirs "braintrust_data" w →
  can_makedirs ("braintrust_data/" +:+ directory) w →
  csv_path directory object_id ∈ dirs w ∨ csv_path directory object_id ∈ denied w →
  ∃ detail w',
    write_to_csv events directory object_id w = Some (Raise (IOError detail), w') ∧
    log w' = log w ++ [ErrWriteCsv (csv_path directory object_id) (IOError detail)] ∧
    files w' = files w ∧
    Forall2 (λ l ev, heap w' !! l = Some (normalized ev)) events evs.
Proof.
  intros Hne Hevs Hd1 Hd2 Hbad.
  destruct (map_m_normalize events (set_dirs (output_dirs directory w) w))
    as (h' & Hrun & Hlk).
  { eapply Forall2_Forall_l; [exact Hevs|]. apply Forall_true. by eauto. }
  simpl in Hlk.
  assert (Forall2 (λ l ev, h' !! l = Some (normalized ev)) events evs) as Hrecs.
  { assert (∀ l, l ∈ events → h' !! l = normalized <$> heap w !! l) as Hin.
    { intros l Hl. by rewrite Hlk, decide_True. }
    clear Hlk Hrun Hne. induction Hevs as [|l ev events evs Hl Hevs IH]; constructor.
    - rewrite Hin by apply list_elem_of_here. by rewrite Hl.
    - apply IH. intros l' Hl'. apply Hin. by apply list_elem_of_further. }
  match type of Hrun with
  | _ = Some (_, ?w1) =>
      destruct (open_for_writing_fail (csv_path directory object_id) w1)
        as [detail Hopen]
  end.
  { simpl. destruct Hbad as [?|?]; [left|by right].
    unfold output_dirs. by apply elem_of_union_r, elem_of_union_r. }
  eexists detail, _. split.
  - unfold write_to_csv.
    erewrite bind_return by (by apply write_to_csv_makedirs).
    destruct events as [|e events]; [done|].
    erewrite try_raise; [|
      erewrite bind_return by exact Hrun;
      erewrite bind_return
        by (apply (collect_fieldnames _ (normalized <$> evs));
            apply Forall2_fmap_r; exact Hrecs);
      by erewrite bind_raise by exact Hopen].
    reflexivity.
  - done.
Qed.

(** X12.  Under the conditions of a successful write (usable output
    location with plain names, records the file's encoding can take)
    [write_to_csv] replaces whatever the object's file held: the file it
    leaves does not depend on earlier contents.
    Every other file is as it was, the log and the network are untouched,
    and the events passed in have been normalised in place, all other
    mappings of the store being left alone. *)
Theorem write_to_csv_overwrites events (evs : list event) directory object_id w old :
  events ≠ [] →
  Forall2 (λ l ev, heap w !! l = Some ev) events evs →
  fs_ready directory object_id w →
  Forall (encodable_record w) (normalized <$> evs) →
  ∃ w1 w2,
    write_to_csv events directory object_id w = Some (Return tt, w1) ∧
    write_to_csv events directory object_id
      (set_files (<[csv_path directory object_id := old]> (files w)) w)
      = Some (Return tt, w2) ∧
    w2 = w1 ∧
    (∀ p, p ≠ csv_path directory object_id → files w1 !! p = files w !! p) ∧
    log w1 = log w ∧ net w1 = net w ∧ sent w1 = sent w ∧
    Forall2 (λ l ev, heap w1 !! l = Some (normalized ev)) events evs ∧
    (∀ l, l ∉ events → heap w1 !! l = heap w !! l).
Proof.
  intros Hne Hevs Hfs Henc.
  destruct (write_to_csv_eq _ _ _ _ _ Hne Hevs Hfs Henc)
    as (h1 & header1 & Hrun1 & -> & Hrecs1 & Hother1).
  destruct (write_to_csv_eq events evs directory object_id
              (set_files (<[csv_path directory object_id := old]> (files w)) w) Hne Hevs)
    as (h2 & header2 & Hrun2 & -> & Hrecs2 & Hother2);
    [by apply fs_ready_overwritten|exact Henc|].
  assert (h2 = h1) as ->.
  { apply list_eq. intros l. destruct (decide (l ∈ events)) as [Hin|Hout].
    - apply list_elem_of_lookup in Hin as [i Hi].
      destruct (Forall2_lookup_l _ _ _ _ _ Hrecs1 Hi) as (ev1 & Hev1 & ->).
      destruct (Forall2_lookup_l _ _ _ _ _ Hrecs2 Hi) as (ev2 & Hev2 & ->).
      congruence.
    - rewrite Hother1, Hother2 by done. done. }
  eexists _, _. split; [exact Hrun1|]. split; [exact Hrun2|]. simpl.
  split; [by rewrite insert_insert_eq|].
  split; [intros p Hp; by rewrite lookup_insert_ne|].
  do 3 (split; [done|]). done.
Qed.

(** X13.  Whenever [write_to_csv] returns for a non-empty list, the
    table it has left is rectangular: one header row and one row per
    event, every row as long as the header.  It does return where the
    output location is usable with plain names and the records hold only
    what the file's encoding can take. *)
Theorem write_to_csv_rectangular events (evs : list event) directory object_id w :
  events ≠ [] →
  Forall2 (λ l ev, heap w !! l = Some ev) events evs →
  (∀ w', write_to_csv events directory object_id w = Some (Return tt, w') →
     ∃ header rows,
       files w' !! csv_path directory object_id = Some (header :: rows) ∧
       length rows = length events ∧
       Forall (λ row, length row = length header) rows) ∧
  (fs_ready directory object_id w →
   Forall (encodable_record w) (normalized <$> evs) →
   ∃ w', write_to_csv events directory object_id w = Some (Return tt, w')).
Proof.
  intros Hne Hevs. split.
  - intros w' Hrun. eexists _, _.
    split; [by eapply write_to_csv_returned|].
    split; [by rewrite !length_fmap, (Forall2_length _ _ _ Hevs)|].
    apply Forall_fmap, Forall_true. intros r. simpl.
    unfold row_of. by rewrite !length_fmap.
  - intros Hfs Henc.
    destruct (write_to_csv_eq _ _ _ _ _ Hne Hevs Hfs Henc) as (h' & header & Hrun & _).
    eexists. exact Hrun.
Qed.

(** ** [download_data] and [main] *)

Lemma fetch_object_list_run endpoint limit starting_after project_id project_name
    headers w :
  ∃ r w' reqs,
    fetch_object_list endpoint limit starting_after project_id project_name headers w
      = Some (r, w') ∧
    sent w' = sent w ++ reqs ∧
    Forall (λ q, req_url q = object_list_url endpoint ∧ req_headers q = headers) reqs.
Proof.
  unfold fetch_object_list.
  match goal with
  | |- context [object_list_loop ?f _ _ _ ?p ?a w] =>
      destruct (object_list_loop_run endpoint limit headers f p a w)
        as (r & w' & reqs & Hrun & Hsent & _ & Hreqs & _)
  end; [lia|].
  exists r, w', reqs. split; [exact Hrun|]. split; [exact Hsent|].
  eapply Forall_impl; [exact Hreqs|]. by intros q (? & ? & _).
Qed.

(** The requests made for one object go to its fetch URL. *)
Lemma handled_requests endpoint headers o w out w' :
  handled endpoint headers o w out w' →
  ∃ reqs, sent w' = sent w ++ reqs ∧
    Forall (λ q, req_url q = events_url endpoint (obj_id o) ∧ req_headers q = headers) reqs.
Proof.
  intros H.
  destruct (fetch_events_run (obj_id o) endpoint 100 headers w)
    as (r & w1 & reqs & new & Hrun & Hsent & _ & Hreqs & Hheap & _ & _ & _ & Hr).
  assert (Forall (λ q, req_url q = events_url endpoint (obj_id o) ∧ req_headers q = headers)
            reqs) as Hreqs'.
  { eapply Forall_impl; [exact Hreqs|]. by intros q (? & ? & _). }
  assert (∀ events, r = Return events →
            Forall (λ l, (l < length (heap w1))%nat) events) as Hlive.
  { intros events ->. rewrite (Hr _ eq_refl), Hheap, length_app.
    apply Forall_seq. intros l Hl. lia. }
  exists reqs.
  destruct H as [events w1' w2 Hfetch Hne Hwrite|w1' Hfetch|e w1' Hfetch
                |events e w1' w2 Hfetch Hne Hwrite];
    rewrite Hfetch in Hrun; injection Hrun as <- <-; try done.
  - destruct (write_to_csv_cases events endpoint (obj_id o) w1' (Hlive _ eq_refl))
      as (r2 & w2' & Hrun2 & _ & _ & Hsent2 & _).
    rewrite Hwrite in Hrun2. injection Hrun2 as <- <-. by rewrite Hsent2.
  - destruct (write_to_csv_cases events endpoint (obj_id o) w1' (Hlive _ eq_refl))
      as (r2 & w2' & Hrun2 & _ & _ & Hsent2 & _).
    rewrite Hwrite in Hrun2. injection Hrun2 as <- <-. simpl. by rewrite Hsent2.
Qed.

Lemma handled_all_requests endpoint headers objects w outs w' :
  handled_all endpoint headers objects w outs w' →
  ∃ reqs, sent w' = sent w ++ reqs ∧
    Forall (λ q, req_headers q = headers ∧
                 ∃ o, o ∈ objects ∧ req_url q = events_url endpoint (obj_id o)) reqs.
Proof.
  induction 1 as [w|o objects w out w1 outs w2 H1 H2 (reqs2 & Hsent2 & Hreqs2)].
  - exists []. by rewrite app_nil_r.
  - destruct (handled_requests _ _ _ _ _ _ H1) as (reqs1 & Hsent1 & Hreqs1).
    exists (reqs1 ++ reqs2). split; [by rewrite Hsent2, Hsent1, app_assoc|].
    apply Forall_app. split.
    + eapply Forall_impl; [exact Hreqs1|]. intros q [Hurl Hh].
      split; [done|]. exists o. split; [apply list_elem_of_here|done].
    + eapply Forall_impl; [exact Hreqs2|]. intros q (Hh & o' & Hin & Hurl).
      split; [done|]. exists o'. split; [by apply list_elem_of_further|done].
Qed.

(** A run always ends; it raises exactly when its listing does. *)
Lemma download_data_run endpoint project_id project_name headers w :
  ∃ r w' reqs,
    download_data endpoint project_id project_name headers w = Some (r, w') ∧
    sent w' = sent w ++ reqs ∧
    Forall (λ q, req_headers q = headers ∧
                 (req_url q = object_list_url endpoint ∨
                  ∃ object_id, req_url q = events_url endpoint object_id)) reqs ∧
    ((∃ objects w1,
        fetch_object_list endpoint 10 None project_id project_name headers w
          = Some (Return objects, w1) ∧ r = Return tt) ∨
     (∃ e w1,
        fetch_object_list endpoint 10 None project_id project_name headers w
          = Some (Raise e, w1) ∧ r = Raise e)).
Proof.
  destruct (fetch_object_list_run endpoint 10 None project_id project_name headers w)
    as (r & w1 & reqs1 & Hlist & Hsent1 & Hreqs1).
  assert (Forall (λ q, req_headers q = headers ∧
                 (req_url q = object_list_url endpoint ∨
                  ∃ object_id, req_url q = events_url endpoint object_id)) reqs1) as Hreqs1'.
  { eapply Forall_impl; [exact Hreqs1|]. intros q [? ?]. auto. }
  destruct r as [objects|e].
  - destruct (handled_all_total endpoint headers objects w1) as (outs & w2 & Hall).
    destruct (handled_all_requests _ _ _ _ _ _ Hall) as (reqs2 & Hsent2 & Hreqs2).
    eexists _, _, (reqs1 ++ reqs2).
    split; [by eapply download_data_listed|]. simpl.
    split; [by rewrite Hsent2, Hsent1, app_assoc|].
    split; [|left; by eauto].
    apply Forall_app. split; [done|].
    eapply Forall_impl; [exact Hreqs2|]. intros q (Hh & o & _ & Hurl). eauto.
  - eexists _, _, reqs1.
    split; [by apply download_data_listing_failed|]. simpl.
    split; [done|]. split; [done|]. right. by eauto.
Qed.


(** X15.  Without an API key ([None] or [''] in the environment) [main]
    exits with status 1 after one error line, and the world is as it was:
    nothing has been requested or written. With a key, a listing of the
    experiments that raises ends [main] with status 1 as well: the
    datasets are never asked for. *)
Theorem main_fatal_paths project_id project_name w :
  main None project_id project_name w = Some (SysExit 1, [ErrApiKeyNotSet], w) ∧
  main (Some "") project_id project_name w = Some (SysExit 1, [ErrApiKeyNotSet], w) ∧
  ∀ a key e w1,
    fetch_object_list "experiment" 10 None project_id project_name
      (Some (bearer_headers (String a key))) w = Some (Raise e, w1) →
    main (Some (String a key)) project_id project_name w
    = Some (SysExit 1, [ErrFatal e],
            add_logs [ErrDownload "experiment" e; ErrFailedObjects "experiment" []] w1).
Proof.
  split; [done|]. split; [done|].
  intros a key e w1 Hlist. unfold main.
  erewrite bind_raise by (by apply download_data_listing_failed). done.
Qed.

(** X16.  With a key, once the run over the experiments has returned,
    [main] runs the datasets from the world the experiments left; if
    their listing returns too, [main] returns normally with the line that
    the download is complete, whatever happened to the single objects of
    either run. *)
Theorem main_completes a key project_id project_name w w2 objects2 w3 :
  download_data "experiment" project_id project_name
    (Some (bearer_headers (String a key))) w = Some (Return tt, w2) →
  fetch_object_list "dataset" 10 None project_id project_name
    (Some (bearer_headers (String a key))) w2 = Some (Return objects2, w3) →
  ∃ w4,
    download_data "dataset" project_id project_name
      (Some (bearer_headers (String a key))) w2 = Some (Return tt, w4) ∧
    main (Some (String a key)) project_id project_name w
    = Some (Returns, [InfoDownloadCompleted], w4).
Proof.
  intros Hrun1 Hlist2.
  destruct (handled_all_total "dataset" (Some (bearer_headers (String a key))) objects2 w3)
    as (outs & w4 & Hall).
  pose proof (download_data_listed _ _ _ _ _ _ _ _ _ Hlist2 Hall) as Hrun2.
  eexists. split; [exact Hrun2|].
  unfold main. erewrite bind_return by exact Hrun1. by rewrite Hrun2.
Qed.

Lemma main_run api_key project_id project_name w :
  ∃ ending lines w' reqs,
    main api_key project_id project_name w = Some (ending, lines, w') ∧
    (ending = Returns ∨ ending = SysExit 1) ∧
    sent w' = sent w ++ reqs ∧
    Forall (λ q, ∃ key, api_key = Some key ∧ key ≠ "" ∧
                        req_headers q = Some (bearer_headers key)) reqs.
Proof.
  unfold main. destruct api_key as [[|a key]|].
  1,3: eexists _, _, _, []; split; [done|]; split; [by right|];
       split; [by rewrite app_nil_r|]; constructor.
  set (headers := Some (bearer_headers (String a key))).
  assert (∀ reqs : list request,
            Forall (λ q, req_headers q = headers ∧
                         (req_url q = object_list_url "experiment" ∨
                          ∃ oid, req_url q = events_url "experiment" oid)) reqs ∨
            Forall (λ q, req_headers q = headers ∧
                         (req_url q = object_list_url "dataset" ∨
                          ∃ oid, req_url q = events_url "dataset" oid)) reqs →
            Forall (λ q, ∃ k, Some (String a key) = Some k ∧ k ≠ "" ∧
                              req_headers q = Some (bearer_headers k)) reqs) as Hauth.
  { intros reqs [H|H]; (eapply Forall_impl; [exact H|]);
      intros q [Hh _]; by exists (String a key). }
  destruct (download_data_run "experiment" project_id project_name headers w)
    as (r1 & w1 & reqs1 & Hrun1 & Hsent1 & Hreqs1 & _).
  destruct r1 as [[]|e1].
  - destruct (download_data_run "dataset" project_id project_name headers w1)
      as (r2 & w2 & reqs2 & Hrun2 & Hsent2 & Hreqs2 & _).
    erewrite bind_return by exact Hrun1. rewrite Hrun2.
    destruct r2 as [[]|e2]; eexists _, _, _, (reqs1 ++ reqs2);
      (split; [done|]); (split; [auto|]);
      (split; [by rewrite Hsent2, Hsent1, app_assoc|]);
      apply Forall_app; auto.
  - erewrite bind_raise by exact Hrun1.
    eexists _, _, _, reqs1. split; [done|]. split; [auto|]. split; [done|]. auto.
Qed.

(** X17.  When [main] has ended, it has returned or left with exit status
    1, and every request it has sent carried the bearer header made from
    the API key. *)
Theorem main_requests_authorised api_key project_id project_name w ending lines w' :
  main api_key project_id project_name w = Some (ending, lines, w') →
  (ending = Returns ∨ ending = SysExit 1) ∧
  ∃ reqs,
    sent w' = sent w ++ reqs ∧
    Forall (λ q, ∃ key, api_key = Some key ∧ key ≠ "" ∧
                        req_headers q = Some (bearer_headers key)) reqs.
Proof.
  intros Hended.
  destruct (main_run api_key project_id project_name w)
    as (ending0 & lines0 & w0 & reqs & Hrun & Hend & Hsent & Hreqs).
  rewrite Hended in Hrun. injection Hrun as <- <- <-.
  split; [exact Hend|]. by exists reqs.
Qed.

End Downloader.

(** * The theorems at work on the sample inputs *)

(** The promotion example, through [normalize_event_promotes_input]. *)
Lemma normalize_event_promotes_input_witness :
  ∃ w' r,
    normalize_event sample_dumps 0%nat (world_of [promotion_event] [])
      = Some (Return 0%nat, w') ∧
    heap w' !! 0%nat = Some r ∧
    r !! "input" = Some (VStr "a") ∧
    r !! "output" = Some (VStr "b") ∧
    r !! "expected" = Some (VStr "c") ∧
    r !! "metadata" = Some (VStr (sample_dumps (VDict [("k", VInt 1)]))).
Proof.
  destruct (normalize_event_promotes_input sample_dumps 0%nat
              (world_of [promotion_event] []) promotion_event
              [("input", VStr "a"); ("output", VStr "b");
               ("expected", VStr "c"); ("metadata", VDict [("k", VInt 1)])]
              eq_refl eq_refl)
    as (w' & r & Hrun & Hr & Hin & Hout & Hexp & Hmeta & _).
  exists w', r. repeat split; assumption.
Defined.

(** The same event: every value of the result is a scalar. *)
Lemma normalize_event_values_scalar_witness :
  ∃ w' r,
    normalize_event sample_dumps 0%nat (world_of [promotion_event] [])
      = Some (Return 0%nat, w') ∧
    heap w' !! 0%nat = Some r ∧
    (∀ key v, r !! key = Some v →
       is_scalar v = true ∧
       ∃ v0, promote promotion_event !! key = Some v0 ∧
             v = (if is_nested v0 then VStr (sample_dumps v0) else v0)) ∧
    (∀ key v0, promote promotion_event !! key = Some v0 →
       r !! key = Some (if is_nested v0 then VStr (sample_dumps v0) else v0)) ∧
    (∀ key v0,
       promotion_event !! key = Some v0 →
       (∀ d, promotion_event !! "input" ≠ Some (VDict d)) ∨
       key ∉ ["input"; "output"; "expected"; "metadata"] →
       (is_scalar v0 = true → r !! key = Some v0) ∧
       (is_nested v0 = true → r !! key = Some (VStr (sample_dumps v0)))).
Proof.
  exact (normalize_event_values_scalar sample_dumps 0%nat
           (world_of [promotion_event] []) promotion_event eq_refl).
Defined.

(** In a store of two mappings only the one passed in is rewritten. *)
Lemma normalize_event_total_in_place_witness :
  ∃ w',
    normalize_event sample_dumps 0%nat (world_of [promotion_event; scalar_event] [])
      = Some (Return 0%nat, w') ∧
    heap w' = [normalized sample_dumps promotion_event; scalar_event] ∧
    log w' = [] ∧ sent w' = [] ∧ files w' = ∅ ∧ dirs w' = ∅.
Proof.
  destruct (normalize_event_total_in_place sample_dumps 0%nat
              (world_of [promotion_event; scalar_event] []) promotion_event eq_refl)
    as (w' & Hrun & Hheap & _ & _ & _ & Hsent & Hdirs & Hfiles & _ & Hlog).
  exists w'. repeat split; assumption.
Defined.

(** C8 as stated fails: after the call the mapping that was passed in no
    longer holds what it held. *)
Lemma normalize_event_modifies_its_argument :
  ∃ w',
    normalize_event sample_dumps 0%nat (world_of [promotion_event] [])
      = Some (Return 0%nat, w') ∧
    heap (world_of [promotion_event] []) !! 0%nat = Some promotion_event ∧
    heap w' !! 0%nat ≠ Some promotion_event.
Proof.
  eexists. split; [vm_compute; reflexivity|]. split; [reflexivity|].
  intros Heq. apply (f_equal (λ o, o ≫= (.!! "output"))) in Heq.
  vm_compute in Heq. discriminate Heq.
Qed.

(** An event of a string, a number and [None] is left alone. *)
Lemma normalize_event_scalar_identity_witness :
  normalize_event sample_dumps 0%nat (world_of [scalar_event] [])
  = Some (Return 0%nat, world_of [scalar_event] []).
Proof.
  apply (normalize_event_scalar_identity sample_dumps 0%nat
           (world_of [scalar_event] []) scalar_event eq_refl).
  intros key v Hkey. unfold scalar_event in Hkey.
  apply lookup_union_Some_raw in Hkey as [Hkey|[_ Hkey]];
    [apply lookup_union_Some_raw in Hkey as [Hkey|[_ Hkey]]|];
    apply lookup_singleton_Some in Hkey as [_ <-]; reflexivity.
Defined.

(** A page of two and a page of one, for a limit of two. *)
Lemma fetch_object_list_pages_witness :
  fetch_object_list "experiment" 2 None (Some "p") None None (world_of [] two_pages)
  = Some (Return [object_x; object_y; object_z],
          set_net []
            [Request (object_list_url "experiment") None
               (<["project_id" := PStr "p"]> {["limit" := PInt 2]});
             Request (object_list_url "experiment") None
               (<["starting_after" := PStr "Y"]>
                  (<["project_id" := PStr "p"]> {["limit" := PInt 2]}))]
            (world_of [] two_pages)).
Proof.
  refine (proj1 (fetch_object_list_pages "experiment" 2 None (Some "p") None None
                   [Body (Some [object_x; object_y]) None None]
                   (Body (Some [object_z]) None None) []
                   (world_of [] two_pages) eq_refl _ _)).
  - repeat constructor. simpl. lia.
  - simpl. lia.
Defined.

(** Two answers of one event each; the second has an empty cursor. *)
Lemma fetch_events_pages_witness :
  fetch_events "X" "experiment" 1 None (world_of [] two_cursors)
  = Some (Return [0%nat; 1%nat],
          set_heap [record_a; record_b]
            (set_net []
               [Request (events_url "experiment" "X") None {["limit" := PInt 1]};
                Request (events_url "experiment" "X") None
                  (<["cursor" := PStr "c1"]> {["limit" := PInt 1]})]
               (world_of [] two_cursors))).
Proof.
  refine (proj1 (fetch_events_pages "X" "experiment" 1 None
                   [Body None (Some [record_a]) (Some "c1")]
                   (Body None (Some [record_b]) (Some "")) []
                   (world_of [] two_cursors) eq_refl _ eq_refl)).
  repeat constructor.
Defined.

(** Nothing stands in the way in a world without files, and every text
    can be encoded there. *)
Lemma can_makedirs_fresh path h answers : can_makedirs path (world_of h answers).
Proof.
  apply Forall_forall. intros p _. right. simpl. rewrite dom_empty_L.
  split; apply not_elem_of_empty.
Defined.

Lemma fs_ready_fresh directory object_id h answers :
  plain_name directory → plain_stem object_id →
  fs_ready directory object_id (world_of h answers).
Proof.
  intros Hdir Hid. split; [exact Hdir|]. split; [exact Hid|].
  split; [apply can_makedirs_fresh|]. split; [apply can_makedirs_fresh|].
  split; apply not_elem_of_empty.
Defined.

Lemma encodable_fresh h answers (recs : list event) :
  Forall (encodable_record (world_of h answers)) recs.
Proof.
  apply Forall_true. intros r k v _.
  split; [right; apply not_elem_of_empty|]. intros s _. right. apply not_elem_of_empty.
Defined.

Lemma plain_name_experiment : plain_name "experiment".
Proof. repeat (split; [first [discriminate | reflexivity]|]). reflexivity. Defined.

Lemma plain_stem_E1 : plain_stem "E1".
Proof. split; reflexivity. Defined.

(** The header example, through [write_to_csv_header_union]. *)
Lemma write_to_csv_header_union_witness :
  ∃ header,
    Sorted String.le header ∧ NoDup header ∧
    (∀ k, k ∈ header ↔
          ∃ r, r ∈ normalized sample_dumps <$> [record_a; record_b] ∧ is_Some (r !! k)) ∧
    (∀ (r : event) j k, header !! j = Some k →
       row_of header r !! j = Some (default (VStr "") (r !! k))) ∧
    (∀ w', write_to_csv sample_dumps [0%nat; 1%nat] "experiment" "E1"
             (world_of [record_a; record_b] []) = Some (Return tt, w') →
       files w' !! csv_path "experiment" "E1"
       = Some ((VStr <$> header)
               :: (row_of header <$> (normalized sample_dumps <$> [record_a; record_b])))) ∧
    (∃ w', write_to_csv sample_dumps [0%nat; 1%nat] "experiment" "E1"
             (world_of [record_a; record_b] []) = Some (Return tt, w')).
Proof.
  destruct (write_to_csv_header_union sample_dumps [0%nat; 1%nat] [record_a; record_b]
              "experiment" "E1" (world_of [record_a; record_b] []))
    as (header & Hsorted & Hnodup & Hkeys & Hcells & Hfile & Hreturns).
  - discriminate.
  - repeat constructor.
  - exists header. do 5 (split; [assumption|]). apply Hreturns.
    + apply fs_ready_fresh; [exact plain_name_experiment|exact plain_stem_E1].
    + apply encodable_fresh.
Defined.

(** No events: in a fresh world, and for an object whose fetch is empty. *)
Lemma write_to_csv_no_events_witness :
  (∃ w',
     write_to_csv sample_dumps [] "experiment" "E2" (world_of [] []) = Some (Return tt, w') ∧
     files w' = ∅ ∧ heap w' = [] ∧ net w' = [] ∧ sent w' = [] ∧
     dirs w' = {["braintrust_data/experiment"]} ∪ ({["braintrust_data"]} ∪ ∅) ∧
     log w' = [WarnNoEvents "E2"]) ∧
  process_object sample_dumps "experiment" None (Tally [] [] []) (Obj "E2" [])
    (world_of [] [Answer (Body None None None)])
  = Some (Return (Tally [] [] ["E2"]),
          set_net [] [Request (events_url "experiment" "E2") None {["limit" := PInt 100]}]
            (world_of [] [Answer (Body None None None)])).
Proof.
  split.
  - apply (proj1 (write_to_csv_no_events sample_dumps) "experiment" "E2" (world_of [] []));
      [exact plain_name_experiment|apply can_makedirs_fresh..].
  - apply (proj2 (write_to_csv_no_events sample_dumps) "experiment" None (Tally [] [] [])
             (Obj "E2" []) (world_of [] [Answer (Body None None None)])).
    reflexivity.
Defined.

(** C9 as stated fails.  With no events the call still creates the output
    directories and writes a log line; and where a directory cannot be
    created it raises. *)
Lemma write_to_csv_no_events_is_not_a_no_op :
  (∃ w',
     write_to_csv sample_dumps [] "experiment" "E2" (world_of [] []) = Some (Return tt, w') ∧
     dirs (world_of [] []) = ∅ ∧
     "braintrust_data/experiment" ∈ dirs w' ∧
     log (world_of [] []) = [] ∧
     log w' = [WarnNoEvents "E2"]) ∧
  write_to_csv sample_dumps [] "experiment" "E2" (world_denying "braintrust_data" [])
  = Some (Raise (UnboundLocalError "filename"), world_denying "braintrust_data" []).
Proof.
  split.
  - exists (add_log (WarnNoEvents "E2")
              (set_dirs ({["braintrust_data/experiment"]} ∪ ({["braintrust_data"]} ∪ ∅))
                 (world_of [] []))).
    split; [vm_compute; reflexivity|]. split; [reflexivity|].
    split; [|split; reflexivity].
    simpl. apply elem_of_union_l, elem_of_singleton. reflexivity.
  - reflexivity.
Qed.


(** The summary of the run in which X fails and Y succeeds. *)
Lemma download_data_summary_witness :
  ∃ objects w1,
    fetch_object_list "experiment" 10 None (Some "p") None None
      (world_of [] x_fails_y_succeeds) = Some (Return objects, w1) ∧
    ∃ outs w2 w',
      handled_all sample_dumps "experiment" None objects w1 outs w2 ∧
      download_data sample_dumps "experiment" (Some "p") None None
        (world_of [] x_fails_y_succeeds) = Some (Return tt, w') ∧
      log w' =
        log w2
        ++ [InfoComplete "experiment"; InfoTotal (length objects);
            InfoNoEventsCount (length (ids_where is_no_events objects outs))]
        ++ match ids_where is_no_events objects outs with
           | [] => []
           | ids => [InfoNoEventsIds ids]
           end
        ++ match length (ids_where is_failed objects outs) with
           | O => []
           | n => [ErrFailedEndpoints (replicate n "experiment")]
           end.
Proof.
  eexists _, _. split; [vm_compute; reflexivity|].
  apply (download_data_summary sample_dumps "experiment" (Some "p") None None
           (world_of [] x_fails_y_succeeds)).
  vm_compute. reflexivity.
Defined.

(** C7 as stated fails.  In a run where the object X fails, the lines
    that end the log give the number of objects but no list of them, and
    name the endpoint where the claim has the ids of the failed objects;
    the id of X only appears in the lines written when X failed. *)
Lemma download_data_summary_omits_failed_ids :
  ∃ w',
    download_data sample_dumps "experiment" (Some "p") None None
      (world_of [] x_fails_y_succeeds) = Some (Return tt, w') ∧
    log w' =
      [ErrFetchEvents "experiment" "X" (RequestException "500");
       ErrProcessing "experiment" "X" (RequestException "500");
       InfoComplete "experiment"; InfoTotal 2; InfoNoEventsCount 0;
       ErrFailedEndpoints ["experiment"]].
Proof. eexists. split; vm_compute; reflexivity. Qed.

(** ** The scenarios of the specification *)

(** Promotion: the event with a nested [input]. *)
Example promotion_scenario :
  normalized sample_dumps promotion_event
  = {[ "input" := VStr "a" ]} ∪ {[ "output" := VStr "b" ]} ∪ {[ "expected" := VStr "c" ]}
    ∪ {[ "metadata" := VStr (sample_dumps (VDict [("k", VInt 1)])) ]}.
Proof. vm_compute. reflexivity. Qed.

(** Header union: the records [{"a": 1}] and [{"b": 2}]. *)
Example header_union_scenario :
  ∃ w',
    write_to_csv sample_dumps [0%nat; 1%nat] "experiment" "E1"
      (world_of [record_a; record_b] []) = Some (Return tt, w') ∧
    files w' !! "braintrust_data/experiment/E1.csv"
      = Some [[VStr "a"; VStr "b"]; [VInt 1; VStr ""]; [VStr ""; VInt 2]].
Proof. eexists. split; vm_compute; reflexivity. Qed.

(** Fault isolation: the fetch for X fails, the table of Y is written. *)
Example fault_isolation_scenario :
  ∃ w',
    download_data sample_dumps "experiment" (Some "p") None None
      (world_of [] x_fails_y_succeeds) = Some (Return tt, w') ∧
    files w' !! "braintrust_data/experiment/X.csv" = None ∧
    files w' !! "braintrust_data/experiment/Y.csv"
      = Some [[VStr "a"; VStr "b"]; [VInt 1; VStr ""]; [VStr ""; VInt 2]] ∧
    ErrProcessing "experiment" "X" (RequestException "500") ∈ log w'.
Proof.
  eexists. split; [vm_compute; reflexivity|].
  split; [vm_compute; reflexivity|]. split; [vm_compute; reflexivity|].
  simpl. apply list_elem_of_further, list_elem_of_here.
Qed.

(** End to end: E1 has three events, one with a nested [input]; E2 has
    none.  One file is written, and the log ends with two objects, one of
    them, E2, without events. *)
Example end_to_end_scenario :
  ∃ w',
    download_data sample_dumps "experiment" (Some "P") None None
      (world_of []
         [Answer (Body (Some [Obj "E1" []; Obj "E2" []]) None None);
          Answer (Body None (Some [promotion_event; record_a; record_b]) None);
          Answer (Body None (Some []) None)])
      = Some (Return tt, w') ∧
    (map_to_list (files w')).*1 = ["braintrust_data/experiment/E1.csv"] ∧
    log w' = [InfoComplete "experiment"; InfoTotal 2; InfoNoEventsCount 1;
              InfoNoEventsIds ["E2"]].
Proof.
  eexists. split; [vm_compute; reflexivity|].
  split; vm_compute; reflexivity.
Qed.

(** [os.makedirs] makes the missing ancestors too. *)
Example makedirs_scenario :
  ∃ w',
    makedirs "braintrust_data/x/y" (world_of [] []) = Some (Return tt, w') ∧
    dirs w' = {[ "braintrust_data"; "braintrust_data/x"; "braintrust_data/x/y" ]}.
Proof. eexists. split; vm_compute; reflexivity. Qed.

(** An object id with a [/]: the directory the file would lie in does
    not exist, [open] fails, and the failure is logged with the file name. *)
Example missing_parent_scenario :
  ∃ w',
    write_to_csv sample_dumps [0%nat] "experiment" "a/b" (world_of [record_a] [])
      = Some (Raise (IOError "FileNotFoundError"), w') ∧
    files w' = ∅ ∧
    log w' = [ErrWriteCsv "braintrust_data/experiment/a/b.csv" (IOError "FileNotFoundError")].
Proof. eexists. split; [vm_compute; reflexivity|]. split; vm_compute; reflexivity. Qed.

(** An object id with a NUL byte: [open] raises a [ValueError], which the
    last [except] clause logs as unexpected. *)
Example nul_byte_scenario :
  ∃ w',
    write_to_csv sample_dumps [0%nat] "experiment" nul_id (world_of [record_a] [])
      = Some (Raise (ValueError "embedded null byte"), w') ∧
    files w' = ∅ ∧
    log w' = [ErrUnexpectedCsv nul_id (ValueError "embedded null byte")].
Proof. eexists. split; [vm_compute; reflexivity|]. split; vm_compute; reflexivity. Qed.

(** A text the file cannot hold: the header is written, the row is not,
    and the [UnicodeEncodeError] is logged as unexpected. *)
Example unencodable_text_scenario :
  ∃ w',
    write_to_csv sample_dumps [0%nat] "experiment" "E1"
      (world_unencodable "snowman" [snowman_event])
      = Some (Raise (UnicodeEncodeError "snowman"), w') ∧
    files w' !! "braintrust_data/experiment/E1.csv" = Some [[VStr "a"]] ∧
    log w' = [ErrUnexpectedCsv "E1" (UnicodeEncodeError "snowman")].
Proof. eexists. split; [vm_compute; reflexivity|]. split; vm_compute; reflexivity. Qed.

(** * The further properties at work on the sample inputs *)

(** Normalising the promotion example twice. *)
Lemma normalize_event_idempotent_witness :
  (normalize_event sample_dumps 0%nat ;; normalize_event sample_dumps 0%nat)
    (world_of [promotion_event] [])
  = normalize_event sample_dumps 0%nat (world_of [promotion_event] []).
Proof.
  exact (normalize_event_idempotent sample_dumps 0%nat
           (world_of [promotion_event] []) promotion_event eq_refl).
Defined.

(** The keys of the promotion example after normalisation. *)
Lemma normalize_event_keys_witness :
  ∃ w' r,
    normalize_event sample_dumps 0%nat (world_of [promotion_event] [])
      = Some (Return 0%nat, w') ∧
    heap w' !! 0%nat = Some r ∧
    dom r = dom promotion_event ∪ {["output"; "expected"; "metadata"]}.
Proof.
  exact (normalize_event_keys sample_dumps 0%nat
           (world_of [promotion_event] []) promotion_event eq_refl).
Defined.

(** An [input] that is a list is serialised where it stands. *)
Lemma normalize_event_without_mapping_input_witness :
  ∃ w' r,
    normalize_event sample_dumps 0%nat (world_of [list_input_event] [])
      = Some (Return 0%nat, w') ∧
    heap w' !! 0%nat = Some r ∧
    ∀ key, r !! key = flatten sample_dumps <$> list_input_event !! key.
Proof.
  exact (normalize_event_without_mapping_input sample_dumps 0%nat
           (world_of [list_input_event] []) list_input_event eq_refl eq_refl).
Defined.

(** A limit of zero and an empty page. *)
(** Two pages from the listing API. *)
Lemma fetch_object_list_requests_witness :
  ∃ r w',
    fetch_object_list "experiment" 2 None (Some "p") None None (world_of [] two_pages)
      = Some (r, w') ∧
    ∃ reqs,
      sent w' = [] ++ reqs ∧ reqs ≠ [] ∧
      Forall (λ q,
        req_url q = object_list_url "experiment" ∧ req_headers q = None ∧
        req_params q !! "limit" = Some (PInt 2) ∧
        req_params q !! "project_id" = Some (PStr "p") ∧
        req_params q !! "project_name" = None) reqs ∧
      heap w' = [] ∧ dirs w' = ∅ ∧ files w' = ∅.
Proof.
  eexists _, _. split; [vm_compute; reflexivity|].
  eapply (fetch_object_list_requests "experiment" 2 None (Some "p") None None
           (world_of [] two_pages)).
  vm_compute. reflexivity.
Defined.

(** An empty page under a limit of zero. *)
Lemma fetch_object_list_nonpositive_limit_witness :
  ∃ r w',
    fetch_object_list "experiment" 0 None (Some "p") None None
      (world_of [] [Answer (Body (Some []) None None)])
    = Some (r, w') ∧
    ∃ e, r = Raise e.
Proof.
  eexists _, _. split; [vm_compute; reflexivity|].
  eapply (fetch_object_list_nonpositive_limit "experiment" 0 None (Some "p") None None
           (world_of [] [Answer (Body (Some []) None None)])).
  - lia.
  - vm_compute. reflexivity.
Defined.

(** A full page of two, then a failure. *)
Lemma fetch_object_list_failure_witness :
  fetch_object_list "experiment" 2 None (Some "p") None None
    (world_of [] second_page_fails)
  = Some (Raise (RequestException "502"),
          add_log (ErrFetchObjectList "experiment" (RequestException "502"))
            (set_net []
               [Request (object_list_url "experiment") None
                  (<["project_id" := PStr "p"]> {["limit" := PInt 2]});
                Request (object_list_url "experiment") None
                  (<["starting_after" := PStr "Y"]>
                     (<["project_id" := PStr "p"]> {["limit" := PInt 2]}))]
               (world_of [] second_page_fails))).
Proof.
  refine (fetch_object_list_failure "experiment" 2 None (Some "p") None None
            [Body (Some [object_x; object_y]) None None] "502" []
            (world_of [] second_page_fails) _ eq_refl _).
  - lia.
  - repeat constructor. simpl. lia.
Defined.

(** One answer with a cursor, then a failure. *)
Lemma fetch_events_failure_witness :
  fetch_events "X" "experiment" 1 None (world_of [] second_answer_fails)
  = Some (Raise (RequestException "502"),
          add_log (ErrFetchEvents "experiment" "X" (RequestException "502"))
            (set_heap [record_a]
               (set_net []
                  [Request (events_url "experiment" "X") None {["limit" := PInt 1]};
                   Request (events_url "experiment" "X") None
                     (<["cursor" := PStr "c1"]> {["limit" := PInt 1]})]
                  (world_of [] second_answer_fails)))).
Proof.
  refine (fetch_events_failure "X" "experiment" 1 None
            [Body None (Some [record_a]) (Some "c1")] "502" []
            (world_of [] second_answer_fails) eq_refl _).
  repeat constructor.
Defined.

(** The header example written in a fresh world. *)
(** The event stream in two answers. *)
Lemma fetch_events_requests_and_store_witness :
  ∃ r w',
    fetch_events "X" "experiment" 1 None (world_of [] two_cursors) = Some (r, w') ∧
    ∃ reqs new,
      sent w' = [] ++ reqs ∧ reqs ≠ [] ∧
      Forall (λ q, req_url q = events_url "experiment" "X" ∧ req_headers q = None ∧
                   req_params q !! "limit" = Some (PInt 1)) reqs ∧
      heap w' = [] ++ new ∧
      (∀ evs, r = Return evs →
         evs = seq 0 (length new) ∧
         Forall2 (λ l ev, heap w' !! l = Some ev) evs new) ∧
      dirs w' = ∅ ∧ files w' = ∅.
Proof.
  eexists _, _. split; [vm_compute; reflexivity|].
  eapply (fetch_events_requests_and_store "X" "experiment" 1 None (world_of [] two_cursors)).
  vm_compute. reflexivity.
Defined.


(** The root directory cannot be made. *)
Lemma write_to_csv_directory_failure_witness :
  ∃ w',
    write_to_csv sample_dumps [0%nat] "experiment" "E1"
      (world_denying "braintrust_data" [promotion_event])
      = Some (Raise (UnboundLocalError "filename"), w') ∧
    log w' = [] ∧ files w' = ∅ ∧ heap w' = [promotion_event].
Proof.
  apply (write_to_csv_directory_failure sample_dumps [0%nat] "experiment" "E1"
           (world_denying "braintrust_data" [promotion_event])).
  left. intros Hcan.
  apply (Forall_cons_1 (creatable _) "braintrust_data" []) in Hcan as [[Hin|[_ Hout]] _].
  - by apply elem_of_empty in Hin.
  - apply Hout. simpl. by apply elem_of_singleton.
Defined.

Lemma can_makedirs_denying_file directory object_id path h :
  csv_path directory object_id ∉ path_prefixes path →
  can_makedirs path (world_denying (csv_path directory object_id) h).
Proof.
  intros Hout. apply Forall_forall. intros p Hp. right. simpl.
  rewrite dom_empty_L. split.
  - apply not_elem_of_empty.
  - apply not_elem_of_singleton. by intros ->.
Defined.

(** The file of the object cannot be opened. *)
Lemma write_to_csv_open_failure_witness :
  ∃ detail w',
    write_to_csv sample_dumps [0%nat] "experiment" "E1"
      (world_denying (csv_path "experiment" "E1") [promotion_event])
      = Some (Raise (IOError detail), w') ∧
    log w' = [ErrWriteCsv (csv_path "experiment" "E1") (IOError detail)] ∧
    files w' = ∅ ∧
    Forall2 (λ l ev, heap w' !! l = Some (normalized sample_dumps ev))
      [0%nat] [promotion_event].
Proof.
  apply (write_to_csv_open_failure sample_dumps [0%nat] [promotion_event]
           "experiment" "E1"
           (world_denying (csv_path "experiment" "E1") [promotion_event])).
  - discriminate.
  - repeat constructor.
  - apply can_makedirs_denying_file.
    intros Hin. apply list_elem_of_singleton in Hin. discriminate.
  - apply can_makedirs_denying_file.
    intros Hin. apply elem_of_cons in Hin as [Hin|Hin]; [discriminate|].
    apply list_elem_of_singleton in Hin. discriminate.
  - right. simpl. by apply elem_of_singleton.
Defined.

(** A stale file of the object is replaced. *)
Lemma write_to_csv_overwrites_witness :
  ∃ w1 w2,
    write_to_csv sample_dumps [0%nat; 1%nat] "experiment" "E1"
      (world_of [record_a; record_b] []) = Some (Return tt, w1) ∧
    write_to_csv sample_dumps [0%nat; 1%nat] "experiment" "E1"
      (set_files (<[csv_path "experiment" "E1" := [[VStr "stale"]]]> ∅)
         (world_of [record_a; record_b] []))
      = Some (Return tt, w2) ∧
    w2 = w1 ∧
    (∀ p, p ≠ csv_path "experiment" "E1" → files w1 !! p = (∅ : gmap string csv_file) !! p) ∧
    log w1 = [] ∧ net w1 = [] ∧ sent w1 = [] ∧
    Forall2 (λ l ev, heap w1 !! l = Some (normalized sample_dumps ev))
      [0%nat; 1%nat] [record_a; record_b] ∧
    (∀ l, l ∉ [0%nat; 1%nat] → heap w1 !! l = [record_a; record_b] !! l).
Proof.
  apply (write_to_csv_overwrites sample_dumps [0%nat; 1%nat] [record_a; record_b]
           "experiment" "E1" (world_of [record_a; record_b] []) [[VStr "stale"]]).
  - discriminate.
  - repeat constructor.
  - apply fs_ready_fresh; [exact plain_name_experiment|exact plain_stem_E1].
  - apply encodable_fresh.
Defined.

(** The table of the header example. *)
Lemma write_to_csv_rectangular_witness :
  (∀ w', write_to_csv sample_dumps [0%nat; 1%nat] "experiment" "E1"
           (world_of [record_a; record_b] []) = Some (Return tt, w') →
     ∃ header rows,
       files w' !! csv_path "experiment" "E1" = Some (header :: rows) ∧
       length rows = 2%nat ∧
       Forall (λ row, length row = length header) rows) ∧
  (∃ w', write_to_csv sample_dumps [0%nat; 1%nat] "experiment" "E1"
           (world_of [record_a; record_b] []) = Some (Return tt, w')).
Proof.
  destruct (write_to_csv_rectangular sample_dumps [0%nat; 1%nat] [record_a; record_b]
              "experiment" "E1" (world_of [record_a; record_b] []))
    as [Htable Hreturns].
  - discriminate.
  - repeat constructor.
  - split; [exact Htable|]. apply Hreturns.
    + apply fs_ready_fresh; [exact plain_name_experiment|exact plain_stem_E1].
    + apply encodable_fresh.
Defined.


(** No key; an empty key; a key and a listing that fails. *)
Lemma main_fatal_paths_witness :
  main sample_dumps None (Some "p") None (world_of [] listing_down)
    = Some (SysExit 1, [ErrApiKeyNotSet], world_of [] listing_down) ∧
  ∃ e w1,
    fetch_object_list "experiment" 10 None (Some "p") None
      (Some (bearer_headers "k")) (world_of [] listing_down) = Some (Raise e, w1) ∧
    main sample_dumps (Some "k") (Some "p") None (world_of [] listing_down)
    = Some (SysExit 1, [ErrFatal e],
            add_logs [ErrDownload "experiment" e; ErrFailedObjects "experiment" []] w1).
Proof.
  pose proof (main_fatal_paths sample_dumps (Some "p") None (world_of [] listing_down))
    as (Hnone & _ & Hfatal).
  split; [exact Hnone|].
  eexists _, _. split; [vm_compute; reflexivity|].
  eapply Hfatal. vm_compute. reflexivity.
Defined.

(** The only experiment fails, there are no datasets: [main] returns. *)
Lemma main_completes_witness :
  ∃ w2 objects2 w3,
    download_data sample_dumps "experiment" (Some "p") None (Some (bearer_headers "k"))
      (world_of [] experiment_fails_no_datasets) = Some (Return tt, w2) ∧
    fetch_object_list "dataset" 10 None (Some "p") None (Some (bearer_headers "k")) w2
      = Some (Return objects2, w3) ∧
    ∃ w4,
      download_data sample_dumps "dataset" (Some "p") None (Some (bearer_headers "k")) w2
        = Some (Return tt, w4) ∧
      main sample_dumps (Some "k") (Some "p") None (world_of [] experiment_fails_no_datasets)
      = Some (Returns, [InfoDownloadCompleted], w4).
Proof.
  eexists _, _, _. split; [vm_compute; reflexivity|].
  split; [vm_compute; reflexivity|].
  eapply (main_completes sample_dumps _ _ (Some "p") None
            (world_of [] experiment_fails_no_datasets));
    vm_compute; reflexivity.
Defined.

(** A run with a key, against an API that fails on an experiment and
    lists no dataset. *)
Lemma main_requests_authorised_witness :
  ∃ ending lines w',
    main sample_dumps (Some "k") (Some "p") None (world_of [] experiment_fails_no_datasets)
      = Some (ending, lines, w') ∧
    (ending = Returns ∨ ending = SysExit 1) ∧
    ∃ reqs,
      sent w' = [] ++ reqs ∧
      Forall (λ q, ∃ key, Some "k" = Some key ∧ key ≠ "" ∧
                          req_headers q = Some (bearer_headers key)) reqs.
Proof.
  eexists _, _, _. split; [vm_compute; reflexivity|].
  eapply (main_requests_authorised sample_dumps (Some "k") (Some "p") None
           (world_of [] experiment_fails_no_datasets)).
  vm_compute. reflexivity.
Defined.
